(** * In-memory storage backend of fake-gcs-server

    A shallow embedding of [internal/backend/memory.go] and the properties of
    its bucket store (active / archived object partition) and of the storage
    engine built on it.

    Conventions of the embedding:
    - a Go slice is a [list]; an index expression that Go would reject with a
      run-time panic yields [None] ([slice_index], [slice_assign],
      [slice_init]), so a function that indexes returns an [option];
    - the map [buckets] is a [gmap string bucketInMemory];
    - an [int64] is a [Z] (the only arithmetic is one division);
    - a Go [error] result is an [option error], [None] being [nil];
    - every call of [time.Now()] reads a [Time] that the caller of the
      embedded function supplies, one argument per call site;
    - [append(active, archived...)] in the read operations may write into the
      spare capacity of the backing array of [activeObjects], beyond its
      length; no element below the length changes, so the lists of the bucket
      are unchanged and the read operations are pure functions;
    - the mutex is not modelled: every operation is one atomic step;
      [DeleteObject], which takes the lock for its second half only, is one
      step too, and the reachable stores also admit that second half run
      alone ([step_DeleteObject_late]). *)

From Stdlib Require Import ZArith String Ascii List Lia.
From stdpp Require Import base option list gmap strings fin_maps.

Local Open Scope Z_scope.

(** ** Clock readings *)

Module Clock.

(** One reading of the process clock, as [time.Now()] returns it: the wall
    clock fields (UTC) and the Unix time in nanoseconds. *)
Record Time : Type := mkTime {
  year : N; month : N; day : N;
  hour : N; minute : N; second : N;
  UnixNano : Z
}.

(** The zero [time.Time{}] of Go: January 1, year 1, 00:00:00 UTC. Its Unix
    time in nanoseconds does not fit an [int64]; the field holds what the
    wrapped-around computation of the runtime gives. No property below
    depends on it. *)
Definition zeroTime : Time := mkTime 1 1 1 0 0 0 (-6795364578871345152).

Definition digit (n : N) : ascii :=
  ascii_of_N (48 + n mod 10).

Definition pad2 (n : N) : string :=
  String (digit (n / 10)) (String (digit n) EmptyString).

Definition pad4 (n : N) : string :=
  String (digit (n / 1000)) (String (digit (n / 100)) (pad2 n)).

(** [t.Format(time.RFC3339)] for a UTC reading: [2006-01-02T15:04:05Z]. *)
Definition FormatRFC3339 (t : Time) : string :=
  (pad4 (year t) +:+ "-" +:+ pad2 (month t) +:+ "-" +:+ pad2 (day t) +:+ "T"
   +:+ pad2 (hour t) +:+ ":" +:+ pad2 (minute t) +:+ ":" +:+ pad2 (second t)
   +:+ "Z")%string.

(** The readings one engine call may take, one per [time.Now()] call site it
    can reach: bucket creation, generation assignment, deletion stamp. *)
Record Readings : Type := mkReadings {
  atCreate : Time;
  atGeneration : Time;
  atDelete : Time
}.

End Clock.
Export Clock.

(** ** Slices *)

Section Slices.
Context {A : Type}.

(** [s[i]] as an expression: panics (here [None]) unless [0 <= i < len(s)]. *)
Definition slice_index (s : list A) (i : Z) : option A :=
  if decide (0 <= i) then s !! Z.to_nat i else None.

(** [s[i] = x]: panics (here [None]) unless [0 <= i < len(s)]. *)
Definition slice_assign (s : list A) (i : Z) (x : A) : option (list A) :=
  if decide (0 <= i < Z.of_nat (length s))
  then Some (<[Z.to_nat i := x]> s) else None.

(** [s[:len(s)-1]]: panics (here [None]) on the empty slice. *)
Definition slice_init (s : list A) : option (list A) :=
  if decide (0 <= Z.of_nat (length s) - 1)
  then Some (take (Z.to_nat (Z.of_nat (length s) - 1)) s) else None.

End Slices.

(** ** Data model *)

(** Modelled from the spec: the [Bucket] struct is declared outside
    [memory.go]; its three fields are the ones the positional literal
    [Bucket{name, versioningEnabled, time.Now()}] fills. *)
Record Bucket : Type := mkBucket {
  BName : string;
  VersioningEnabled : bool;
  TimeCreated : Time
}.

(** Modelled from the spec: the [Object] struct is declared outside
    [memory.go]. It carries the identity triple, the [Deleted] marker and a
    payload that the engine never inspects. *)
Record Object : Type := mkObject {
  BucketName : string;
  Name : string;
  Content : string;
  Deleted : string;
  Generation : Z
}.

Global Instance Object_eq_dec : EqDecision Object.
Proof. solve_decision. Defined.

(** The zero value [Object{}]. *)
Definition zeroObject : Object :=
  mkObject EmptyString EmptyString EmptyString EmptyString 0.

(** Modelled from the spec: [Object.IDNoGen] is declared outside [memory.go];
    the logical identity is the pair (bucket, name). *)
Definition IDNoGen (o : Object) : string * string := (BucketName o, Name o).

(** Modelled from the spec: [Object.ID] is declared outside [memory.go]; the
    full identity is the triple (bucket, name, generation). *)
Definition ID (o : Object) : string * string * Z := (IDNoGen o, Generation o).

Definition withDeleted (o : Object) (d : string) : Object :=
  mkObject (BucketName o) (Name o) (Content o) d (Generation o).

Definition withGeneration (o : Object) (g : Z) : Object :=
  mkObject (BucketName o) (Name o) (Content o) (Deleted o) g.

Record bucketInMemory : Type := mkBucketInMemory {
  bucket : Bucket;
  activeObjects : list Object;
  archivedObjects : list Object
}.

Definition zeroBucketInMemory : bucketInMemory :=
  mkBucketInMemory (mkBucket EmptyString false zeroTime) [] [].

Definition setActive (bm : bucketInMemory) (l : list Object) : bucketInMemory :=
  mkBucketInMemory (bucket bm) l (archivedObjects bm).

Definition setArchived (bm : bucketInMemory) (l : list Object) : bucketInMemory :=
  mkBucketInMemory (bucket bm) (activeObjects bm) l.

Record StorageMemory : Type := mkStorageMemory {
  buckets : gmap string bucketInMemory
}.

(** The three errors [memory.go] builds, and the kinds the spec sorts them
    into. *)
Inductive error : Type :=
  | NoBucketNamed (name : string)
  | ObjectNotFound
  | BucketExistsDifferently (name : string).

Inductive ErrorKind : Type := NotFound | Conflict.

Definition kind (e : error) : ErrorKind :=
  match e with
  | NoBucketNamed _ | ObjectNotFound => NotFound
  | BucketExistsDifferently _ => Conflict
  end.

(** ** Bucket store *)

Definition newBucketInMemory (now : Time) (name : string)
    (versioningEnabled : bool) : bucketInMemory :=
  mkBucketInMemory (mkBucket name versioningEnabled now) [] [].

(** The loop of [findObject], [i] being the index of the head of [objectList]
    in the slice that is searched. *)
Fixpoint findObject_from (i : Z) (obj : Object) (objectList : list Object)
    (matchGeneration : bool) : Z :=
  match objectList with
  | [] => -1
  | o :: rest =>
      if matchGeneration && bool_decide (ID obj = ID o) then i
      else if negb matchGeneration && bool_decide (IDNoGen obj = IDNoGen o) then i
      else findObject_from (i + 1) obj rest matchGeneration
  end.

Definition findObject (obj : Object) (objectList : list Object)
    (matchGeneration : bool) : Z :=
  findObject_from 0 obj objectList matchGeneration.

Definition getNewGenerationIfZero (now : Time) (generation : Z) : Z :=
  if decide (generation = 0) then Z.quot (UnixNano now) 1000 else generation.

Definition cpToArchive (bm : bucketInMemory) (obj : Object) : bucketInMemory :=
  setArchived bm (archivedObjects bm ++ [obj]).

Definition addObject (tGen tDel : Time) (bm : bucketInMemory) (obj : Object)
    : option bucketInMemory :=
  let obj := withGeneration obj (getNewGenerationIfZero tGen (Generation obj)) in
  let index := findObject obj (activeObjects bm) false in
  if decide (index >= 0) then
    bm ← (if VersioningEnabled (bucket bm) then
            old ← slice_index (activeObjects bm) index;
            active ← slice_assign (activeObjects bm) index
                       (withDeleted old (FormatRFC3339 tDel));
            let bm := setActive bm active in
            retired ← slice_index (activeObjects bm) index;
            Some (cpToArchive bm retired)
          else Some bm);
    active ← slice_assign (activeObjects bm) index obj;
    Some (setActive bm active)
  else
    Some (setActive bm (activeObjects bm ++ [obj])).

Definition deleteFromObjectList (bm : bucketInMemory) (obj : Object)
    (active : bool) : option bucketInMemory :=
  let objects := if active then activeObjects bm else archivedObjects bm in
  let index := findObject obj objects (negb active) in
  last ← slice_index objects (Z.of_nat (length objects) - 1);
  objects ← slice_assign objects index last;
  rest ← slice_init objects;
  Some (if active then setActive bm rest else setArchived bm rest).

Definition mvToArchive (bm : bucketInMemory) (obj : Object)
    : option bucketInMemory :=
  deleteFromObjectList (cpToArchive bm obj) obj true.

Definition deleteObject (now : Time) (bm : bucketInMemory) (obj : Object)
    (matchGeneration : bool) : option bucketInMemory :=
  let index := findObject obj (activeObjects bm) matchGeneration in
  if decide (index < 0) then Some bm
  else if VersioningEnabled (bucket bm) then
    mvToArchive bm (withDeleted obj (FormatRFC3339 now))
  else
    deleteFromObjectList bm obj true.

(** ** Storage engine *)

Definition getBucketInMemory (s : StorageMemory) (name : string)
    : bucketInMemory * option error :=
  match buckets s !! name with
  | Some bm => (bm, None)
  | None => (zeroBucketInMemory, Some (NoBucketNamed name))
  end.

Definition CreateBucket (now : Time) (s : StorageMemory) (name : string)
    (versioningEnabled : bool) : StorageMemory * option error :=
  match getBucketInMemory s name with
  | (bm, None) =>
      if decide (VersioningEnabled (bucket bm) ≠ versioningEnabled)
      then (s, Some (BucketExistsDifferently name))
      else (s, None)
  | (_, Some _) =>
      (mkStorageMemory
         (<[name := newBucketInMemory now name versioningEnabled]> (buckets s)),
       None)
  end.

Definition ListBuckets (s : StorageMemory) : list Bucket * option error :=
  (map (λ kv, mkBucket (BName (bucket kv.2)) (VersioningEnabled (bucket kv.2))
                        (TimeCreated (bucket kv.2)))
       (map_to_list (buckets s)),
   None).

Definition GetBucket (s : StorageMemory) (name : string)
    : Bucket * option error :=
  let '(bm, err) := getBucketInMemory s name in
  (mkBucket (BName (bucket bm)) (VersioningEnabled (bucket bm))
            (TimeCreated (bucket bm)), err).

(** [None] stands for a run-time panic inside [addObject]. *)
Definition CreateObject (r : Readings) (s : StorageMemory) (obj : Object)
    : option (StorageMemory * option error) :=
  let '(bm, err) := getBucketInMemory s (BucketName obj) in
  let bm := if err is Some _
            then newBucketInMemory (atCreate r) (BucketName obj) false
            else bm in
  bm ← addObject (atGeneration r) (atDelete r) bm obj;
  Some (mkStorageMemory (<[BucketName obj := bm]> (buckets s)), None).

(** One round of the loop of [NewStorageMemory]; the error of [CreateBucket]
    is dropped, and [s.buckets[name]] of an absent key is the zero bucket. *)
Definition seedObject (s : StorageMemory) (ro : Readings * Object)
    : option StorageMemory :=
  let '(r, o) := ro in
  let s := (CreateBucket (atCreate r) s (BucketName o) false).1 in
  let bm := default zeroBucketInMemory (buckets s !! BucketName o) in
  bm ← addObject (atGeneration r) (atDelete r) bm o;
  Some (mkStorageMemory (<[BucketName o := bm]> (buckets s))).

Definition emptyStorage : StorageMemory := mkStorageMemory ∅.

(** [NewStorageMemory(objects)]; each object comes with the clock readings
    taken while it is added. *)
Definition NewStorageMemory (objects : list (Readings * Object))
    : option StorageMemory :=
  foldl (λ acc ro, s ← acc; seedObject s ro) (Some emptyStorage) objects.

Definition ListObjects (s : StorageMemory) (bucketName : string)
    (versions : bool) : list Object * option error :=
  match getBucketInMemory s bucketName with
  | (_, Some e) => ([], Some e)
  | (bm, None) =>
      if negb versions then (activeObjects bm, None)
      else (activeObjects bm ++ archivedObjects bm, None)
  end.

(** [None] stands for a run-time panic while indexing the searched list. *)
Definition GetObjectWithGeneration (s : StorageMemory)
    (bucketName objectName : string) (generation : Z)
    : option (Object * option error) :=
  match getBucketInMemory s bucketName with
  | (_, Some e) => Some (zeroObject, Some e)
  | (bm, None) =>
      let obj := mkObject bucketName objectName EmptyString EmptyString 0 in
      let '(matchGeneration, obj, listToConsider) :=
        if decide (generation ≠ 0)
        then (true, withGeneration obj generation,
              activeObjects bm ++ archivedObjects bm)
        else (false, obj, activeObjects bm) in
      let index := findObject obj listToConsider matchGeneration in
      if decide (index < 0) then Some (obj, Some ObjectNotFound)
      else found ← slice_index listToConsider index; Some (found, None)
  end.

Definition GetObject (s : StorageMemory) (bucketName objectName : string)
    : option (Object * option error) :=
  GetObjectWithGeneration s bucketName objectName 0.

(** [None] stands for a run-time panic in [GetObject] or [deleteObject]. *)
Definition DeleteObject (now : Time) (s : StorageMemory)
    (bucketName objectName : string) : option (StorageMemory * option error) :=
  r ← GetObject s bucketName objectName;
  match r with
  | (_, Some e) => Some (s, Some e)
  | (obj, None) =>
      match getBucketInMemory s bucketName with
      | (_, Some e) => Some (s, Some e)
      | (bm, None) =>
          bm ← deleteObject now bm obj true;
          Some (mkStorageMemory (<[bucketName := bm]> (buckets s)), None)
      end
  end.

(** ** The spec's reading of a lookup of the current version *)

(** Stated from the spec: the current active version of (bucket, name) is the
    entry of the bucket's [activeObjects] with that logical identity. *)
Definition currentVersion (s : StorageMemory) (bucketName objectName : string)
    : option (Object * option error) :=
  match buckets s !! bucketName with
  | None => Some (zeroObject, Some (NoBucketNamed bucketName))
  | Some bm =>
      match list_find (λ o, IDNoGen o = (bucketName, objectName))
                      (activeObjects bm) with
      | Some (_, o) => Some (o, None)
      | None =>
          Some (mkObject bucketName objectName EmptyString EmptyString 0,
                Some ObjectNotFound)
      end
  end.

(** ** Reachable states *)

(** One public operation; the read operations leave the store as it is.
    [step_DeleteObject_late] is the second critical section of [DeleteObject]
    on its own, for a call whose [GetObject] ran before other calls changed
    the store: the object it deletes with is then any object. *)
Inductive step (s : StorageMemory) : StorageMemory → Prop :=
  | step_CreateBucket now name v :
      step s (CreateBucket now s name v).1
  | step_CreateObject r obj s' err :
      CreateObject r s obj = Some (s', err) → step s s'
  | step_DeleteObject now b o s' err :
      DeleteObject now s b o = Some (s', err) → step s s'
  | step_DeleteObject_late now b obj bm bm' :
      buckets s !! b = Some bm →
      deleteObject now bm obj true = Some bm' →
      step s (mkStorageMemory (<[b := bm']> (buckets s)))
  | step_read : step s s.

Inductive reachable : StorageMemory → Prop :=
  | reachable_empty : reachable emptyStorage
  | reachable_seeded objects s :
      NewStorageMemory objects = Some s → reachable s
  | reachable_step s s' : reachable s → step s s' → reachable s'.

(** ** Scripts of public operations *)

Inductive Op : Type :=
  | OpCreateBucket (now : Time) (name : string) (versioningEnabled : bool)
  | OpCreateObject (r : Readings) (obj : Object)
  | OpDeleteObject (now : Time) (bucketName objectName : string).

Definition exec (op : Op) (s : StorageMemory)
    : option (StorageMemory * option error) :=
  match op with
  | OpCreateBucket now name v => Some (CreateBucket now s name v)
  | OpCreateObject r obj => CreateObject r s obj
  | OpDeleteObject now b o => DeleteObject now s b o
  end.

(** Runs the operations in order, whatever error each one returns. *)
Definition run (ops : list Op) (s : StorageMemory) : option StorageMemory :=
  foldl (λ acc op, s ← acc; fst <$> exec op s) (Some s) ops.

(** ** Concrete stores used as instances *)

Module Demo.

Definition t1 : Time := mkTime 2024 5 17 9 30 12 1715938212000000000.
Definition t2 : Time := mkTime 2024 5 17 9 30 13 1715938213000000000.
Definition t3 : Time := mkTime 2024 5 17 9 30 14 1715938214000000000.
Definition r1 : Readings := mkReadings t1 t1 t1.
Definition r2 : Readings := mkReadings t2 t2 t2.

Definition objX5 : Object := mkObject "b" "o" "x" EmptyString 5.
Definition objY5 : Object := mkObject "b" "o" "y" EmptyString 5.
Definition objX : Object := mkObject "b" "o" "x" EmptyString 0.
Definition objY : Object := mkObject "b" "o" "y" EmptyString 0.

(** Two writes of the same name into a bucket, with and without
    versioning. *)
Definition writes (versioningEnabled : bool) : list Op :=
  [OpCreateBucket t1 "b" versioningEnabled;
   OpCreateObject r1 objX; OpCreateObject r2 objY].

Definition versioned : StorageMemory :=
  default emptyStorage (run (writes true) emptyStorage).

(** Two writes of the same name with the same generation supplied by the
    caller, into a bucket with versioning. *)
Definition rewrites : list Op :=
  [OpCreateBucket t1 "b" true;
   OpCreateObject r1 objX5; OpCreateObject r2 objY5].

Definition regenerated : StorageMemory :=
  default emptyStorage (run rewrites emptyStorage).

Definition unversioned : StorageMemory :=
  default emptyStorage (run (writes false) emptyStorage).

(** The bucket of each store, and the versions the writes leave in it. *)
Definition bucketOf (s : StorageMemory) : bucketInMemory :=
  default zeroBucketInMemory (buckets s !! "b").

Definition genX : Z := 1715938212000000.
Definition genY : Z := 1715938213000000.

Definition archivedX : Object :=
  mkObject "b" "o" "x" "2024-05-17T09:30:13Z" genX.
Definition activeY : Object := mkObject "b" "o" "y" EmptyString genY.
Definition archivedX5 : Object :=
  mkObject "b" "o" "x" "2024-05-17T09:30:13Z" 5.

End Demo.

(** ** Predicates used in the statements *)

(** The test of one round of the loop of [findObject]. *)
Definition matches (matchGeneration : bool) (obj o : Object) : Prop :=
  if matchGeneration then ID obj = ID o else IDNoGen obj = IDNoGen o.

Global Instance matches_dec mg obj o : Decision (matches mg obj o).
Proof. unfold matches. destruct mg; apply _. Defined.

(** A list after the removal of position [j] the way [deleteFromObjectList]
    does it: the last element takes the place of the removed one. *)
Definition swapRemove {A} (l : list A) (j : nat) : list A :=
  match last l with
  | Some x => take (length l - 1)%nat (<[j := x]> l)
  | None => l
  end.

(** At most one active entry per logical identity. *)
Definition uniqueActive (bm : bucketInMemory) : Prop :=
  NoDup (IDNoGen <$> activeObjects bm).

(** Every archived entry carries a deletion stamp. *)
Definition archivedStamped (bm : bucketInMemory) : Prop :=
  Forall (λ o, Deleted o ≠ EmptyString) (archivedObjects bm).

Definition bucket_inv (bm : bucketInMemory) : Prop :=
  uniqueActive bm ∧ archivedStamped bm.

(** A property of buckets that holds of every bucket of the store. *)
Definition everywhere (P : bucketInMemory → Prop) (s : StorageMemory) : Prop :=
  ∀ name bm, buckets s !! name = Some bm → P bm.

Definition store_inv (s : StorageMemory) : Prop := everywhere bucket_inv s.

(** A bucket without versioning keeps no archive. *)
Definition archiveOnlyVersioned (bm : bucketInMemory) : Prop :=
  VersioningEnabled (bucket bm) = false → archivedObjects bm = [].

(** The first entry of a list that has a property, the entry a linear scan
    returns. *)
Definition firstWith (P : Object → Prop) `{∀ o, Decision (P o)}
    (l : list Object) : option Object :=
  snd <$> list_find P l.

(** The object [GetObjectWithGeneration] searches with, and the list it
    searches. *)
Definition probe (bucketName objectName : string) (generation : Z) : Object :=
  mkObject bucketName objectName EmptyString EmptyString generation.

Definition considered (bm : bucketInMemory) (generation : Z) : list Object :=
  if decide (generation ≠ 0)
  then activeObjects bm ++ archivedObjects bm else activeObjects bm.

(** The object [addObject] stores: its argument once the generation has been
    resolved by the first statement of the function. *)
Definition resolved (tGen : Time) (obj : Object) : Object :=
  withGeneration obj (getNewGenerationIfZero tGen (Generation obj)).

(** A bucket stored under [name] carries that name, and so does every object
    it holds. *)
Definition bucketNamed (name : string) (bm : bucketInMemory) : Prop :=
  BName (bucket bm) = name ∧
  Forall (λ o, BucketName o = name) (activeObjects bm ++ archivedObjects bm).

Definition store_named (s : StorageMemory) : Prop :=
  ∀ name bm, buckets s !! name = Some bm → bucketNamed name bm.

(** The script that writes the objects of a seed one after the other. *)
Definition seedOps (objects : list (Readings * Object)) : list Op :=
  map (λ ro, OpCreateObject ro.1 ro.2) objects.

(** The last object of a seed written under (bucket, name). *)
Definition lastWritten (bucketName objectName : string)
    (objects : list (Readings * Object)) : option (Readings * Object) :=
  last (filter (λ ro, IDNoGen ro.2 = (bucketName, objectName)) objects).

(** The list [deleteFromObjectList] works on, and the bucket with that list
    replaced. *)
Definition selected (bm : bucketInMemory) (active : bool) : list Object :=
  if active then activeObjects bm else archivedObjects bm.

Definition setSelected (bm : bucketInMemory) (active : bool)
    (l : list Object) : bucketInMemory :=
  if active then setActive bm l else setArchived bm l.

(** * Properties *)

(** ** Clock *)

Lemma FormatRFC3339_nonempty t : FormatRFC3339 t ≠ EmptyString.
Proof. unfold FormatRFC3339, pad4. simpl. discriminate. Qed.

(** ** Slices *)

Section SliceFacts.
Context {A : Type}.
Implicit Types (s : list A) (i : Z) (x : A).

Lemma slice_index_Some s i x :
  slice_index s i = Some x ↔ 0 <= i ∧ s !! Z.to_nat i = Some x.
Proof.
  unfold slice_index. destruct (decide (0 <= i)) as [Hi|Hi].
  - split; [auto | by intros [_ ?]].
  - split; [done | intros [? _]; lia].
Qed.

Lemma slice_index_of_nat s (k : nat) : slice_index s (Z.of_nat k) = s !! k.
Proof.
  unfold slice_index. rewrite decide_True by lia. by rewrite Nat2Z.id.
Qed.

Lemma slice_assign_of_nat s (k : nat) x :
  (k < length s)%nat → slice_assign s (Z.of_nat k) x = Some (<[k := x]> s).
Proof.
  intros Hk. unfold slice_assign. rewrite decide_True by lia.
  by rewrite Nat2Z.id.
Qed.

Lemma slice_init_nonempty s :
  s ≠ [] → slice_init s = Some (take (length s - 1)%nat s).
Proof.
  intros Hs. unfold slice_init. destruct s as [|a s]; [done|].
  rewrite decide_True by (simpl; lia). do 2 f_equal. simpl length. lia.
Qed.

Lemma slice_last s :
  slice_index s (Z.of_nat (length s) - 1) = last s.
Proof.
  unfold slice_index. destruct s as [|a s]; [done|].
  rewrite decide_True by (simpl; lia). rewrite last_lookup.
  f_equal. simpl length. lia.
Qed.

Lemma swapRemove_perm s (j : nat) :
  (j < length s)%nat → swapRemove s j ≡ₚ delete j s.
Proof.
  intros Hj. unfold swapRemove.
  destruct s as [|a s] using rev_ind; [simpl in Hj; lia|]. clear IHs.
  rewrite last_snoc, length_app. simpl length.
  replace (length s + 1 - 1)%nat with (length s) by lia.
  rewrite length_app in Hj. simpl in Hj.
  destruct (decide (j = length s)) as [->|Hne].
  - rewrite insert_app_r_alt by lia. rewrite Nat.sub_diag. simpl.
    rewrite take_app_length.
    rewrite delete_take_drop, take_app_length.
    rewrite drop_app_ge by lia. rewrite drop_ge by (simpl; lia).
    by rewrite app_nil_r.
  - rewrite insert_app_l by lia.
    rewrite take_app_length' by (rewrite length_insert; lia).
    rewrite insert_take_drop by lia.
    rewrite delete_take_drop. rewrite drop_app_le by lia.
    rewrite <- Permutation_middle.
    rewrite (Permutation_app_comm (drop (S j) s) [a]). simpl.
    rewrite take_app_le by lia. apply Permutation_middle.
Qed.

Lemma swapRemove_elem_of s (j : nat) x :
  x ∈ swapRemove s j → x ∈ s.
Proof.
  unfold swapRemove. destruct (last s) as [y|] eqn:Hl; [|done].
  intros Hx%elem_of_take. destruct Hx as (k & Hk & _).
  destruct (decide (j = k)) as [->|Hne].
  - destruct (decide (k < length s)%nat).
    + rewrite list_lookup_insert_eq in Hk by done. simplify_eq.
      rewrite last_lookup in Hl. by eapply list_elem_of_lookup_2.
    + rewrite list_insert_ge in Hk by lia. by eapply list_elem_of_lookup_2.
  - rewrite list_lookup_insert_ne in Hk by done.
    by eapply list_elem_of_lookup_2.
Qed.

End SliceFacts.

(** ** Lookup by identity *)

Lemma matches_full_logical obj o : matches true obj o → matches false obj o.
Proof. unfold matches, ID. intros H. by apply (f_equal fst) in H. Qed.

Lemma matches_logical mg obj o : matches mg obj o → IDNoGen obj = IDNoGen o.
Proof. destruct mg; [apply matches_full_logical | done]. Qed.

(** [findObject] is the first position that passes the test, or [-1]. *)
Lemma findObject_from_find i obj l mg :
  findObject_from i obj l mg =
  match list_find (matches mg obj) l with
  | Some (k, _) => i + Z.of_nat k
  | None => -1
  end.
Proof.
  revert i. induction l as [|o l IH]; intros i; [done|].
  cbn [findObject_from list_find]. rewrite IH.
  destruct (decide (matches mg obj o)) as [Hm|Hm].
  - destruct mg; cbn in Hm |- *.
    + rewrite bool_decide_eq_true_2 by done. cbn. lia.
    + rewrite bool_decide_eq_true_2 by done. cbn. lia.
  - destruct mg; cbn in Hm |- *;
      rewrite bool_decide_eq_false_2 by done; cbn;
      destruct (list_find _ l) as [[k ?]|]; cbn; lia.
Qed.

Lemma findObject_find obj l mg :
  findObject obj l mg =
  match list_find (matches mg obj) l with
  | Some (k, _) => Z.of_nat k
  | None => -1
  end.
Proof.
  unfold findObject. rewrite findObject_from_find.
  by destruct (list_find _ l) as [[k ?]|].
Qed.

Lemma findObject_found obj l mg :
  findObject obj l mg >= 0 →
  ∃ (k : nat) o, findObject obj l mg = Z.of_nat k ∧ l !! k = Some o ∧
    matches mg obj o ∧ ∀ j y, l !! j = Some y → (j < k)%nat → ¬ matches mg obj y.
Proof.
  rewrite findObject_find.
  destruct (list_find _ l) as [[k o]|] eqn:Hf; [|lia]. intros _.
  apply list_find_Some in Hf as (? & ? & ?). by exists k, o.
Qed.

Lemma findObject_missing obj l mg :
  findObject obj l mg < 0 ↔ Forall (λ o, ¬ matches mg obj o) l.
Proof.
  rewrite findObject_find.
  destruct (list_find (matches mg obj) l) as [[k o]|] eqn:Hf.
  - split; [lia|]. intros HF.
    apply (list_find_None (matches mg obj)) in HF. congruence.
  - apply list_find_None in Hf. split; [done|lia].
Qed.

Lemma findObject_range obj l mg :
  findObject obj l mg = -1 ∨ 0 <= findObject obj l mg < Z.of_nat (length l).
Proof.
  rewrite findObject_find.
  destruct (list_find _ l) as [[k o]|] eqn:Hf; [right|by left].
  apply list_find_Some in Hf as (Hk%lookup_lt_Some & _). lia.
Qed.

(** A match by full identity is also a match by logical identity, so the
    second search finds an entry whenever the first did. *)
Lemma findObject_logical_of_found obj l mg :
  findObject obj l mg >= 0 → 0 <= findObject obj l false < Z.of_nat (length l).
Proof.
  intros (k & o & _ & Hk & Hm & _)%findObject_found.
  destruct (findObject_range obj l false) as [Hneg|]; [|done].
  assert (findObject obj l false < 0) as Hlt by lia.
  apply findObject_missing in Hlt.
  rewrite Forall_forall in Hlt. destruct (Hlt o).
  - by eapply list_elem_of_lookup_2.
  - by eapply matches_logical.
Qed.

(** With at most one entry per logical identity, both searches stop at the
    same position. *)
Lemma findObject_logical_same obj l mg (k : nat) :
  NoDup (IDNoGen <$> l) →
  findObject obj l mg = Z.of_nat k → findObject obj l false = Z.of_nat k.
Proof.
  intros Hnd Hk.
  destruct (findObject_found obj l mg) as (k' & o & Hk' & Hl & Hm & _); [lia|].
  assert (k' = k) as -> by lia.
  destruct (findObject_found obj l false) as (j & y & Hj & Hlj & Hmj & _).
  { pose proof (findObject_logical_of_found obj l mg). lia. }
  rewrite Hj. f_equal.
  eapply NoDup_lookup; [exact Hnd| |].
  - rewrite list_lookup_fmap, Hlj. reflexivity.
  - rewrite list_lookup_fmap, Hl. cbn. f_equal.
    cbn in Hmj. rewrite <- Hmj. symmetry. by eapply matches_logical.
Qed.

(** The stored entry is found again by full identity exactly where the
    logical search found it. *)
Lemma findObject_stored obj l (k : nat) o :
  findObject obj l false = Z.of_nat k → l !! k = Some o →
  findObject o l true = Z.of_nat k ∧ findObject o l false = Z.of_nat k.
Proof.
  intros Hk Hl.
  destruct (findObject_found obj l false) as (k' & o' & Hk' & Hl' & Hm & Hmin);
    [lia|].
  assert (k' = k) as -> by lia. simplify_eq.
  assert (∀ mg, findObject o l mg = Z.of_nat k) as Hall; [|by split].
  intros mg. rewrite findObject_find.
  assert (list_find (matches mg o) l = Some (k, o)) as ->; [|done].
  apply list_find_Some. split_and!; [done|by destruct mg|].
  intros j y Hj Hlt Hmy. apply (Hmin j y Hj Hlt).
  cbn in Hm |- *. rewrite Hm. by eapply matches_logical.
Qed.

(** The search looks at the identity of the probe only. *)
Lemma findObject_from_ext i obj1 obj2 l mg :
  matches mg obj1 obj2 →
  findObject_from i obj1 l mg = findObject_from i obj2 l mg.
Proof.
  intros Hid. revert i. induction l as [|o l IH]; intros i; [done|].
  cbn [findObject_from]. rewrite IH. by destruct mg; cbn in Hid; rewrite Hid.
Qed.

Lemma findObject_withDeleted obj d l mg :
  findObject (withDeleted obj d) l mg = findObject obj l mg.
Proof. apply findObject_from_ext. by destruct mg. Qed.

Lemma findObject_resolved tGen obj l :
  findObject (resolved tGen obj) l false = findObject obj l false.
Proof. by apply findObject_from_ext. Qed.

(** ** Bucket store: what [addObject] computes *)

Lemma resolved_nonzero tGen obj : Generation obj ≠ 0 → resolved tGen obj = obj.
Proof.
  intros Hg. unfold resolved, getNewGenerationIfZero.
  rewrite decide_False by done. by destruct obj.
Qed.

Lemma resolved_IDNoGen tGen obj : IDNoGen (resolved tGen obj) = IDNoGen obj.
Proof. done. Qed.

Lemma addObject_found tGen tDel bm obj (k : nat) old :
  findObject obj (activeObjects bm) false = Z.of_nat k →
  activeObjects bm !! k = Some old →
  addObject tGen tDel bm obj =
  Some (mkBucketInMemory (bucket bm)
          (<[k := resolved tGen obj]> (activeObjects bm))
          (if VersioningEnabled (bucket bm)
           then archivedObjects bm ++ [withDeleted old (FormatRFC3339 tDel)]
           else archivedObjects bm)).
Proof.
  intros Hk Hold. pose proof (lookup_lt_Some _ _ _ Hold) as Hlt.
  unfold addObject. cbv zeta. fold (resolved tGen obj).
  rewrite findObject_resolved, Hk. rewrite decide_True by lia.
  destruct (VersioningEnabled (bucket bm)); cbn.
  - rewrite slice_index_of_nat, Hold. cbn.
    rewrite slice_assign_of_nat by done. cbn.
    rewrite slice_index_of_nat, list_lookup_insert_eq by done. cbn.
    rewrite slice_assign_of_nat by (by rewrite length_insert). cbn.
    by rewrite list_insert_insert_eq.
  - by rewrite slice_assign_of_nat by done.
Qed.

Lemma addObject_fresh tGen tDel bm obj :
  findObject obj (activeObjects bm) false < 0 →
  addObject tGen tDel bm obj =
  Some (setActive bm (activeObjects bm ++ [resolved tGen obj])).
Proof.
  intros Hk. unfold addObject. cbv zeta. fold (resolved tGen obj).
  rewrite findObject_resolved. by rewrite decide_False by lia.
Qed.

(** [addObject] never indexes out of range. *)
Lemma addObject_total tGen tDel bm obj : is_Some (addObject tGen tDel bm obj).
Proof.
  destruct (decide (findObject obj (activeObjects bm) false >= 0)) as [Hf|Hf].
  - apply findObject_found in Hf as (k & old & Hk & Hold & _).
    by erewrite addObject_found.
  - rewrite addObject_fresh by lia. done.
Qed.

(** ** Bucket store: what [deleteObject] computes *)

Lemma deleteFromObjectList_active bm obj (j : nat) :
  findObject obj (activeObjects bm) false = Z.of_nat j →
  deleteFromObjectList bm obj true =
  Some (setActive bm (swapRemove (activeObjects bm) j)).
Proof.
  intros Hj.
  destruct (findObject_found obj (activeObjects bm) false)
    as (j' & o & Hj' & Hl & _); [lia|].
  assert (j' = j) as -> by lia. pose proof (lookup_lt_Some _ _ _ Hl) as Hlt.
  unfold deleteFromObjectList, swapRemove. cbn [negb]. rewrite Hj, slice_last.
  destruct (last (activeObjects bm)) as [x|] eqn:Hlast.
  - cbn. rewrite slice_assign_of_nat by done. cbn.
    rewrite slice_init_nonempty.
    + cbn. by rewrite length_insert.
    + intros Hnil%(f_equal length). rewrite length_insert in Hnil.
      destruct (activeObjects bm); simpl in *; lia.
  - apply last_None in Hlast. rewrite Hlast in Hlt. simpl in Hlt. lia.
Qed.

Lemma deleteObject_missing now bm obj mg :
  findObject obj (activeObjects bm) mg < 0 → deleteObject now bm obj mg = Some bm.
Proof. intros Hf. unfold deleteObject. by rewrite decide_True by done. Qed.

Lemma deleteObject_found now bm obj mg (j : nat) :
  findObject obj (activeObjects bm) mg >= 0 →
  findObject obj (activeObjects bm) false = Z.of_nat j →
  deleteObject now bm obj mg =
  Some (mkBucketInMemory (bucket bm)
          (swapRemove (activeObjects bm) j)
          (if VersioningEnabled (bucket bm)
           then archivedObjects bm ++ [withDeleted obj (FormatRFC3339 now)]
           else archivedObjects bm)).
Proof.
  intros Hf Hj. unfold deleteObject. rewrite decide_False by lia.
  destruct (VersioningEnabled (bucket bm)) eqn:Hv.
  - unfold mvToArchive.
    erewrite deleteFromObjectList_active; [done|].
    cbn. by rewrite findObject_withDeleted.
  - by erewrite deleteFromObjectList_active.
Qed.

(** [deleteObject] never indexes out of range. *)
Lemma deleteObject_total now bm obj mg : is_Some (deleteObject now bm obj mg).
Proof.
  destruct (decide (findObject obj (activeObjects bm) mg < 0)) as [Hf|Hf].
  - by rewrite deleteObject_missing.
  - destruct (findObject_logical_of_found obj (activeObjects bm) mg) as [H0 _];
      [lia|].
    erewrite (deleteObject_found _ _ _ _
                (Z.to_nat (findObject obj (activeObjects bm) false)));
      [done|lia|lia].
Qed.

(** ** Uniqueness of logical identities *)

Section Unique.
Implicit Types (l : list Object) (k j : nat).

Lemma filter_none (P : Object → Prop) `{∀ o, Decision (P o)} l :
  Forall (λ o, ¬ P o) l → filter P l = [].
Proof.
  induction 1 as [|o l Ho _ IH]; [done|]. by rewrite filter_cons_False.
Qed.

Lemma unique_position l k j x y :
  NoDup (IDNoGen <$> l) → l !! k = Some x → l !! j = Some y →
  IDNoGen y = IDNoGen x → j = k.
Proof.
  intros Hnd Hk Hj Hid.
  eapply NoDup_lookup; [exact Hnd| |]; rewrite list_lookup_fmap.
  - rewrite Hj. cbn. by rewrite Hid.
  - by rewrite Hk.
Qed.

Lemma unique_delete l k x :
  NoDup (IDNoGen <$> l) → l !! k = Some x →
  Forall (λ y, IDNoGen y ≠ IDNoGen x) (delete k l).
Proof.
  intros Hnd Hk. apply Forall_lookup. intros j y Hj Hid.
  destruct (decide (j < k)%nat).
  - rewrite list_lookup_delete_lt in Hj by done.
    pose proof (unique_position _ _ _ _ _ Hnd Hk Hj Hid). lia.
  - rewrite list_lookup_delete_ge in Hj by lia.
    pose proof (unique_position _ _ _ _ _ Hnd Hk Hj Hid). lia.
Qed.

Lemma unique_swapRemove l k x :
  NoDup (IDNoGen <$> l) → l !! k = Some x →
  Forall (λ y, IDNoGen y ≠ IDNoGen x) (swapRemove l k).
Proof.
  intros Hnd Hk. rewrite swapRemove_perm by by eapply lookup_lt_Some.
  by apply unique_delete.
Qed.

Lemma NoDup_swapRemove l k :
  (k < length l)%nat → NoDup (IDNoGen <$> l) →
  NoDup (IDNoGen <$> swapRemove l k).
Proof.
  intros Hk Hnd. rewrite swapRemove_perm by done.
  rewrite list_fmap_delete. eapply sublist_NoDup; [done|apply sublist_delete].
Qed.

Lemma NoDup_replace l k old new :
  l !! k = Some old → IDNoGen new = IDNoGen old →
  NoDup (IDNoGen <$> l) → NoDup (IDNoGen <$> <[k := new]> l).
Proof.
  intros Hk Hid Hnd. rewrite list_fmap_insert, Hid.
  rewrite list_insert_id; [done|]. by rewrite list_lookup_fmap, Hk.
Qed.

Lemma NoDup_append l new :
  Forall (λ o, IDNoGen new ≠ IDNoGen o) l →
  NoDup (IDNoGen <$> l) → NoDup (IDNoGen <$> l ++ [new]).
Proof.
  intros Hfresh Hnd. rewrite fmap_app. apply NoDup_app. split_and!.
  - done.
  - intros i (o & -> & Ho)%list_elem_of_fmap Hin.
    apply list_elem_of_singleton in Hin.
    rewrite Forall_forall in Hfresh. by destruct (Hfresh o Ho).
  - apply NoDup_singleton.
Qed.

Lemma filter_replace_unique l k old new :
  NoDup (IDNoGen <$> l) → l !! k = Some old → IDNoGen new = IDNoGen old →
  filter (λ o, IDNoGen o = IDNoGen new) (<[k := new]> l) = [new].
Proof.
  intros Hnd Hk Hid. pose proof (lookup_lt_Some _ _ _ Hk) as Hlt.
  pose proof (unique_delete _ _ _ Hnd Hk) as Hothers.
  rewrite delete_take_drop, Forall_app in Hothers. destruct Hothers as [Hl Hr].
  rewrite insert_take_drop, filter_app, filter_cons_True by done.
  rewrite !filter_none; [done| |].
  - eapply Forall_impl; [exact Hr|]. cbn. intros o Ho. by rewrite Hid.
  - eapply Forall_impl; [exact Hl|]. cbn. intros o Ho. by rewrite Hid.
Qed.

Lemma filter_append_unique l new :
  Forall (λ o, IDNoGen new ≠ IDNoGen o) l →
  filter (λ o, IDNoGen o = IDNoGen new) (l ++ [new]) = [new].
Proof.
  intros Hfresh. rewrite filter_app, filter_none.
  - by rewrite filter_cons_True.
  - eapply Forall_impl; [exact Hfresh|]. cbn. intros o Ho Heq. by apply Ho.
Qed.

End Unique.

(** ** Postcondition of [addObject] *)

(** C1. [addObject] returns (no index is out of range) and leaves the bucket
    record alone; the stored object is the argument with its generation
    resolved, which is the argument itself when the generation is not zero.
    When the active list has an entry with the logical identity of the
    argument, the first one being [old] at position [k]: with versioning on,
    position [k] holds the new object and [old], stamped with the non-empty
    formatted time, is appended to the archive; with versioning off, position
    [k] holds the new object and the archive is unchanged. When there is no
    such entry, the new object is appended to the active list and the archive
    is unchanged. When the active list had at most one entry per logical
    identity, it afterwards has exactly one entry with the identity of the
    argument, the new object. *)
Theorem addObject_postcondition tGen tDel bm obj :
  ∃ bm', addObject tGen tDel bm obj = Some bm' ∧
    bucket bm' = bucket bm ∧
    (Generation obj ≠ 0 → resolved tGen obj = obj) ∧
    (∀ k old, list_find (matches false obj) (activeObjects bm) = Some (k, old) →
       VersioningEnabled (bucket bm) = true →
       activeObjects bm' = <[k := resolved tGen obj]> (activeObjects bm) ∧
       archivedObjects bm' =
         archivedObjects bm ++ [withDeleted old (FormatRFC3339 tDel)] ∧
       Deleted (withDeleted old (FormatRFC3339 tDel)) ≠ EmptyString) ∧
    (∀ k old, list_find (matches false obj) (activeObjects bm) = Some (k, old) →
       VersioningEnabled (bucket bm) = false →
       activeObjects bm' = <[k := resolved tGen obj]> (activeObjects bm) ∧
       archivedObjects bm' = archivedObjects bm) ∧
    (list_find (matches false obj) (activeObjects bm) = None →
       activeObjects bm' = activeObjects bm ++ [resolved tGen obj] ∧
       archivedObjects bm' = archivedObjects bm) ∧
    (uniqueActive bm →
       filter (λ o, IDNoGen o = IDNoGen obj) (activeObjects bm')
       = [resolved tGen obj]).
Proof.
  pose proof (findObject_find obj (activeObjects bm) false) as Hfind.
  destruct (list_find (matches false obj) (activeObjects bm)) as [[k old]|]
    eqn:Hlf.
  - apply list_find_Some in Hlf as (Hold & Hm & _).
    eexists. split; [by eapply addObject_found|]. cbn.
    split_and!; try done.
    + by apply resolved_nonzero.
    + intros ? ? [= <- <-] ->. split_and!; try done.
    + by intros ? ? [= <- <-] ->.
    + intros Hu. rewrite <- (resolved_IDNoGen tGen obj).
      by eapply filter_replace_unique.
  - eexists. split; [apply addObject_fresh; lia|]. cbn.
    split_and!; try done.
    + by apply resolved_nonzero.
    + intros _. rewrite <- (resolved_IDNoGen tGen obj).
      apply filter_append_unique. by apply list_find_None in Hlf.
Qed.

Lemma addObject_postcondition_witness :
  ∃ bm',
    addObject Demo.t3 Demo.t3 (Demo.bucketOf Demo.versioned) Demo.objY5
    = Some bm' ∧
    filter (λ o, IDNoGen o = IDNoGen Demo.objY5) (activeObjects bm')
    = [resolved Demo.t3 Demo.objY5].
Proof.
  destruct (addObject_postcondition Demo.t3 Demo.t3
              (Demo.bucketOf Demo.versioned) Demo.objY5)
    as (bm' & Hadd & _ & _ & _ & _ & _ & Hunique).
  exists bm'. split; [exact Hadd|]. apply Hunique.
  unfold uniqueActive. vm_compute. apply NoDup_singleton.
Defined.

(** ** Invariants of the bucket store *)

Lemma addObject_bucket tGen tDel bm obj bm' :
  addObject tGen tDel bm obj = Some bm' → bucket bm' = bucket bm.
Proof.
  destruct (decide (findObject obj (activeObjects bm) false >= 0)) as [Hf|Hf].
  - apply findObject_found in Hf as (k & old & Hk & Hold & _).
    erewrite addObject_found by done. by intros [= <-].
  - rewrite addObject_fresh by lia. by intros [= <-].
Qed.

Lemma deleteObject_bucket now bm obj mg bm' :
  deleteObject now bm obj mg = Some bm' → bucket bm' = bucket bm.
Proof.
  destruct (decide (findObject obj (activeObjects bm) mg < 0)) as [Hf|Hf].
  - rewrite deleteObject_missing by done. by intros [= <-].
  - destruct (findObject_logical_of_found obj (activeObjects bm) mg) as [H0 _];
      [lia|].
    erewrite (deleteObject_found _ _ _ _
                (Z.to_nat (findObject obj (activeObjects bm) false)));
      [|lia|lia].
    by intros [= <-].
Qed.

Lemma addObject_inv tGen tDel bm obj bm' :
  bucket_inv bm → addObject tGen tDel bm obj = Some bm' → bucket_inv bm'.
Proof.
  intros [Hu Ha].
  destruct (decide (findObject obj (activeObjects bm) false >= 0)) as [Hf|Hf].
  - apply findObject_found in Hf as (k & old & Hk & Hold & Hm & _).
    erewrite addObject_found by done. intros [= <-]. split.
    + unfold uniqueActive. cbn. eapply NoDup_replace; [done| |done].
      by rewrite resolved_IDNoGen.
    + unfold archivedStamped. cbn.
      destruct (VersioningEnabled (bucket bm)); [|done].
      apply Forall_app_2; [done|]. apply Forall_singleton. cbn.
      apply FormatRFC3339_nonempty.
  - rewrite addObject_fresh by lia. intros [= <-]. split; [|done].
    unfold uniqueActive. cbn. apply NoDup_append; [|done].
    assert (findObject obj (activeObjects bm) false < 0) as Hlt by lia.
    by apply findObject_missing in Hlt.
Qed.

Lemma deleteObject_inv now bm obj mg bm' :
  bucket_inv bm → deleteObject now bm obj mg = Some bm' → bucket_inv bm'.
Proof.
  intros [Hu Ha].
  destruct (decide (findObject obj (activeObjects bm) mg < 0)) as [Hf|Hf].
  - rewrite deleteObject_missing by done. by intros [= <-].
  - destruct (findObject_logical_of_found obj (activeObjects bm) mg) as [H0 H1];
      [lia|].
    erewrite (deleteObject_found _ _ _ _
                (Z.to_nat (findObject obj (activeObjects bm) false)));
      [|lia|lia].
    intros [= <-]. split.
    + unfold uniqueActive. cbn. apply NoDup_swapRemove; [lia|done].
    + unfold archivedStamped. cbn.
      destruct (VersioningEnabled (bucket bm)); [|done].
      apply Forall_app_2; [done|]. apply Forall_singleton. cbn.
      apply FormatRFC3339_nonempty.
Qed.

Lemma addObject_archiveOnlyVersioned tGen tDel bm obj bm' :
  archiveOnlyVersioned bm → addObject tGen tDel bm obj = Some bm' →
  archiveOnlyVersioned bm'.
Proof.
  intros Hbm.
  destruct (decide (findObject obj (activeObjects bm) false >= 0)) as [Hf|Hf].
  - apply findObject_found in Hf as (k & old & Hk & Hold & _).
    erewrite addObject_found by done. intros [= <-].
    unfold archiveOnlyVersioned. cbn. intros Hv. rewrite Hv. by apply Hbm.
  - rewrite addObject_fresh by lia. by intros [= <-].
Qed.

Lemma deleteObject_archiveOnlyVersioned now bm obj mg bm' :
  archiveOnlyVersioned bm → deleteObject now bm obj mg = Some bm' →
  archiveOnlyVersioned bm'.
Proof.
  intros Hbm.
  destruct (decide (findObject obj (activeObjects bm) mg < 0)) as [Hf|Hf].
  - rewrite deleteObject_missing by done. by intros [= <-].
  - destruct (findObject_logical_of_found obj (activeObjects bm) mg) as [H0 H1];
      [lia|].
    erewrite (deleteObject_found _ _ _ _
                (Z.to_nat (findObject obj (activeObjects bm) false)));
      [|lia|lia].
    intros [= <-]. unfold archiveOnlyVersioned. cbn. intros Hv.
    rewrite Hv. by apply Hbm.
Qed.

(** ** Invariants of the store *)

Lemma getBucketInMemory_Some s name bm :
  buckets s !! name = Some bm → getBucketInMemory s name = (bm, None).
Proof. intros H. unfold getBucketInMemory. by rewrite H. Qed.

Lemma getBucketInMemory_None s name :
  buckets s !! name = None →
  getBucketInMemory s name = (zeroBucketInMemory, Some (NoBucketNamed name)).
Proof. intros H. unfold getBucketInMemory. by rewrite H. Qed.

Lemma everywhere_insert P s name bm :
  everywhere P s → P bm →
  everywhere P (mkStorageMemory (<[name := bm]> (buckets s))).
Proof.
  intros Hs Hbm name' bm'. cbn. rewrite lookup_insert.
  case_decide; [by intros [= <-]|]. apply Hs.
Qed.

(** A property of buckets that the empty bucket has and that [addObject] and
    [deleteObject] keep holds of every bucket of every reachable store. *)
Section Everywhere.
Variable P : bucketInMemory → Prop.
Hypothesis P_empty : ∀ b, P (mkBucketInMemory b [] []).
Hypothesis P_addObject : ∀ tGen tDel bm obj bm',
  P bm → addObject tGen tDel bm obj = Some bm' → P bm'.
Hypothesis P_deleteObject : ∀ now bm obj mg bm',
  P bm → deleteObject now bm obj mg = Some bm' → P bm'.

Lemma everywhere_CreateBucket now s name v :
  everywhere P s → everywhere P (CreateBucket now s name v).1.
Proof.
  intros Hs. unfold CreateBucket.
  destruct (buckets s !! name) as [bm|] eqn:Hb.
  - rewrite (getBucketInMemory_Some _ _ _ Hb). by case_decide.
  - rewrite (getBucketInMemory_None _ _ Hb). cbn.
    apply everywhere_insert; [done|]. apply P_empty.
Qed.

Lemma everywhere_CreateObject r s obj s' err :
  everywhere P s → CreateObject r s obj = Some (s', err) → everywhere P s'.
Proof.
  intros Hs. unfold CreateObject.
  destruct (buckets s !! BucketName obj) as [bm|] eqn:Hb.
  - rewrite (getBucketInMemory_Some _ _ _ Hb).
    destruct (addObject _ _ bm obj) as [bm'|] eqn:Hadd; [|done].
    intros [= <- <-]. apply everywhere_insert; [done|].
    eapply P_addObject; [|done]. by eapply Hs.
  - rewrite (getBucketInMemory_None _ _ Hb).
    destruct (addObject _ _ _ obj) as [bm'|] eqn:Hadd; [|done].
    intros [= <- <-]. apply everywhere_insert; [done|].
    eapply P_addObject; [|done]. apply P_empty.
Qed.

Lemma everywhere_DeleteObject now s b o s' err :
  everywhere P s → DeleteObject now s b o = Some (s', err) → everywhere P s'.
Proof.
  intros Hs. unfold DeleteObject.
  destruct (GetObject s b o) as [[obj [e|]]|]; cbn; [by intros [= <- <-]| |done].
  destruct (buckets s !! b) as [bm|] eqn:Hb.
  - rewrite (getBucketInMemory_Some _ _ _ Hb).
    destruct (deleteObject now bm obj true) as [bm'|] eqn:Hdel; [|done].
    intros [= <- <-]. apply everywhere_insert; [done|].
    eapply P_deleteObject; [|done]. by eapply Hs.
  - rewrite (getBucketInMemory_None _ _ Hb). by intros [= <- <-].
Qed.

Lemma everywhere_seedObject s ro s' :
  everywhere P s → seedObject s ro = Some s' → everywhere P s'.
Proof.
  intros Hs. destruct ro as [r o]. unfold seedObject.
  pose proof (everywhere_CreateBucket (atCreate r) s (BucketName o) false Hs)
    as Hs1.
  destruct (addObject _ _ _ o) as [bm'|] eqn:Hadd; [|done].
  intros [= <-]. apply everywhere_insert; [done|].
  eapply P_addObject; [|done].
  destruct (buckets _ !! BucketName o) as [bm|] eqn:Hb; cbn.
  - by eapply Hs1.
  - apply P_empty.
Qed.

Lemma everywhere_NewStorageMemory objects s :
  NewStorageMemory objects = Some s → everywhere P s.
Proof.
  unfold NewStorageMemory.
  assert (everywhere P emptyStorage) as H0 by (by intros name bm).
  revert H0. generalize emptyStorage as s0. revert s.
  induction objects as [|ro objects IH]; intros s s0 Hs0; cbn.
  - by intros [= <-].
  - destruct (seedObject s0 ro) as [s1|] eqn:Hseed.
    + apply IH. by eapply everywhere_seedObject.
    + assert (∀ l, foldl (λ acc ro, s ← acc; seedObject s ro) None l
                   = @None StorageMemory) as Hnone
        by (induction l; [done|by cbn]).
      by rewrite Hnone.
Qed.

Lemma everywhere_step s s' : everywhere P s → step s s' → everywhere P s'.
Proof.
  intros Hs [now name v|r obj s1 err Hc|now b o s1 err Hd
              |now b obj bm bm' Hb Hd|].
  - by apply everywhere_CreateBucket.
  - by eapply everywhere_CreateObject.
  - by eapply everywhere_DeleteObject.
  - apply everywhere_insert; [done|].
    eapply P_deleteObject; [|done]. by eapply Hs.
  - done.
Qed.

Lemma everywhere_reachable s : reachable s → everywhere P s.
Proof.
  induction 1 as [|objects s Hnew|s s' _ IH Hstep].
  - by intros name bm.
  - by eapply everywhere_NewStorageMemory.
  - by eapply everywhere_step.
Qed.

End Everywhere.

Lemma bucket_inv_empty b : bucket_inv (mkBucketInMemory b [] []).
Proof. split; [apply NoDup_nil_2 | apply Forall_nil_2]. Qed.

Lemma archiveOnlyVersioned_empty b :
  archiveOnlyVersioned (mkBucketInMemory b [] []).
Proof. done. Qed.

Lemma store_inv_reachable s : reachable s → store_inv s.
Proof.
  apply everywhere_reachable.
  - apply bucket_inv_empty.
  - apply addObject_inv.
  - apply deleteObject_inv.
Qed.

Lemma archiveOnlyVersioned_reachable s :
  reachable s → everywhere archiveOnlyVersioned s.
Proof.
  apply everywhere_reachable.
  - apply archiveOnlyVersioned_empty.
  - apply addObject_archiveOnlyVersioned.
  - apply deleteObject_archiveOnlyVersioned.
Qed.

Lemma exec_step op s s' err : exec op s = Some (s', err) → step s s'.
Proof.
  destruct op as [now name v|r obj|now b o]; cbn.
  - intros [= Hc]. replace s' with (CreateBucket now s name v).1
      by (by rewrite Hc).
    apply step_CreateBucket.
  - apply step_CreateObject.
  - apply step_DeleteObject.
Qed.

Lemma run_reachable ops s s' :
  reachable s → run ops s = Some s' → reachable s'.
Proof.
  unfold run. revert s. induction ops as [|op ops IH]; intros s Hs; cbn.
  - by intros [= <-].
  - destruct (exec op s) as [[s1 err]|] eqn:Hex; cbn.
    + apply IH. eapply reachable_step; [done|]. by eapply exec_step.
    + assert (∀ l, foldl (λ acc op, s ← acc; fst <$> exec op s) None l
                   = @None StorageMemory) as Hnone
        by (induction l; [done|by cbn]).
      by rewrite Hnone.
Qed.

(** C2. In every store reachable from the empty store or from a store built
    by [NewStorageMemory], by any sequence of [CreateBucket], [CreateObject],
    [DeleteObject] and read operations, the active list of every bucket has
    at most one entry per logical identity and every archived entry has a
    non-empty [Deleted] marker. *)
Theorem reachable_invariant s :
  reachable s →
  ∀ name bm, buckets s !! name = Some bm →
    NoDup (IDNoGen <$> activeObjects bm) ∧
    Forall (λ o, Deleted o ≠ EmptyString) (archivedObjects bm).
Proof. intros Hs name bm Hb. by apply (store_inv_reachable s Hs name bm). Qed.

Lemma reachable_invariant_witness :
  NoDup (IDNoGen <$> activeObjects (Demo.bucketOf Demo.versioned)) ∧
  Forall (λ o, Deleted o ≠ EmptyString)
    (archivedObjects (Demo.bucketOf Demo.versioned)).
Proof.
  apply (reachable_invariant Demo.versioned) with (name := "b"%string).
  - apply (run_reachable (Demo.writes true) emptyStorage).
    + apply reachable_empty.
    + vm_compute. reflexivity.
  - vm_compute. reflexivity.
Defined.

(** ** Lookups of the engine *)

Lemma GetObjectWithGeneration_unfold s b o g bm :
  buckets s !! b = Some bm →
  GetObjectWithGeneration s b o g =
  match list_find (matches (bool_decide (g ≠ 0)) (probe b o g))
          (considered bm g) with
  | Some (_, e) => Some (e, None)
  | None => Some (probe b o g, Some ObjectNotFound)
  end.
Proof.
  intros Hb. unfold GetObjectWithGeneration, considered.
  rewrite (getBucketInMemory_Some _ _ _ Hb).
  destruct (decide (g ≠ 0)) as [Hg|Hg].
  - rewrite bool_decide_eq_true_2 by done.
    change (withGeneration _ g) with (probe b o g).
    rewrite findObject_find.
    destruct (list_find _ _) as [[k e]|] eqn:Hf.
    + rewrite decide_False by lia. rewrite slice_index_of_nat.
      apply list_find_Some in Hf as (-> & _). done.
    + by rewrite decide_True by lia.
  - rewrite bool_decide_eq_false_2 by done.
    assert (g = 0) as -> by lia.
    change (mkObject b o _ _ 0) with (probe b o 0).
    rewrite findObject_find.
    destruct (list_find _ _) as [[k e]|] eqn:Hf.
    + rewrite decide_False by lia. rewrite slice_index_of_nat.
      apply list_find_Some in Hf as (-> & _). done.
    + by rewrite decide_True by lia.
Qed.

Lemma GetObjectWithGeneration_no_bucket s b o g :
  buckets s !! b = None →
  GetObjectWithGeneration s b o g = Some (zeroObject, Some (NoBucketNamed b)).
Proof.
  intros Hb. unfold GetObjectWithGeneration.
  by rewrite (getBucketInMemory_None _ _ Hb).
Qed.

Lemma GetObject_unfold s b o bm :
  buckets s !! b = Some bm →
  GetObject s b o =
  match list_find (matches false (probe b o 0)) (activeObjects bm) with
  | Some (_, e) => Some (e, None)
  | None => Some (probe b o 0, Some ObjectNotFound)
  end.
Proof. intros Hb. unfold GetObject. by erewrite GetObjectWithGeneration_unfold. Qed.

Lemma ListObjects_versions s b bm :
  buckets s !! b = Some bm →
  ListObjects s b true = (activeObjects bm ++ archivedObjects bm, None).
Proof.
  intros Hb. unfold ListObjects. by rewrite (getBucketInMemory_Some _ _ _ Hb).
Qed.

Lemma firstWith_matches_full b o g l :
  firstWith (matches true (probe b o g)) l =
  firstWith (λ e, ID e = (b, o, g)) l.
Proof.
  unfold firstWith. f_equal. apply list_find_ext. intros e.
  unfold matches; split; intros He; by symmetry.
Qed.

Lemma firstWith_matches_logical b o g l :
  firstWith (matches false (probe b o g)) l =
  firstWith (λ e, IDNoGen e = (b, o)) l.
Proof.
  unfold firstWith. f_equal. apply list_find_ext. intros e.
  unfold matches; split; intros He; by symmetry.
Qed.

Lemma firstWith_None P `{∀ o, Decision (P o)} l :
  firstWith P l = None ↔ Forall (λ e, ¬ P e) l.
Proof. unfold firstWith. by rewrite fmap_None, list_find_None. Qed.

Lemma firstWith_app_r P `{∀ o, Decision (P o)} l1 l2 :
  Forall (λ e, ¬ P e) l1 → firstWith P (l1 ++ l2) = firstWith P l2.
Proof.
  intros Hl1. unfold firstWith. rewrite list_find_app_r by by apply list_find_None.
  by destruct (list_find P l2) as [[??]|].
Qed.

Lemma firstWith_lookup P `{∀ o, Decision (P o)} l (k : nat) e :
  l !! k = Some e → P e → (∀ j y, l !! j = Some y → (j < k)%nat → ¬ P y) →
  firstWith P l = Some e.
Proof.
  intros Hk He Hmin. unfold firstWith.
  assert (list_find P l = Some (k, e)) as -> by by apply list_find_Some.
  done.
Qed.

Lemma GetObjectWithGeneration_firstWith s b o g bm :
  buckets s !! b = Some bm →
  GetObjectWithGeneration s b o g =
  match firstWith (matches (bool_decide (g ≠ 0)) (probe b o g))
          (considered bm g) with
  | Some e => Some (e, None)
  | None => Some (probe b o g, Some ObjectNotFound)
  end.
Proof.
  intros Hb. rewrite (GetObjectWithGeneration_unfold _ _ _ _ _ Hb).
  unfold firstWith. by destruct (list_find _ _) as [[??]|].
Qed.

(** ** [GetObjectWithGeneration] *)

(** C3, amended. [GetObjectWithGeneration] fails with the bucket-level
    not-found error when the bucket is absent. When the bucket exists: for
    generation zero it returns the first active entry with the logical
    identity (bucket, name); for a non-zero generation it returns the first
    entry of active ++ archived with the full identity (bucket, name,
    generation); it fails with the object-level not-found error, which is
    another error of the same kind, exactly when the searched list has no such
    entry. In particular an archived version with a non-zero generation is
    returned when no active entry and no earlier archived entry carries its
    full identity. *)
Theorem GetObjectWithGeneration_spec s b o g :
  (buckets s !! b = None →
     GetObjectWithGeneration s b o g
     = Some (zeroObject, Some (NoBucketNamed b))) ∧
  (∀ bm, buckets s !! b = Some bm →
     (g = 0 → ∀ e,
        firstWith (λ e, IDNoGen e = (b, o)) (activeObjects bm) = Some e →
        GetObjectWithGeneration s b o g = Some (e, None)) ∧
     (g ≠ 0 → ∀ e,
        firstWith (λ e, ID e = (b, o, g))
          (activeObjects bm ++ archivedObjects bm) = Some e →
        GetObjectWithGeneration s b o g = Some (e, None)) ∧
     ((∃ obj, GetObjectWithGeneration s b o g
              = Some (obj, Some ObjectNotFound)) ↔
      if decide (g = 0)
      then Forall (λ e, IDNoGen e ≠ (b, o)) (activeObjects bm)
      else Forall (λ e, ID e ≠ (b, o, g))
             (activeObjects bm ++ archivedObjects bm)) ∧
     (g ≠ 0 → ∀ (k : nat) e,
        archivedObjects bm !! k = Some e → ID e = (b, o, g) →
        Forall (λ a, ID a ≠ (b, o, g)) (activeObjects bm) →
        (∀ (j : nat) y, archivedObjects bm !! j = Some y → (j < k)%nat →
                        ID y ≠ (b, o, g)) →
        GetObjectWithGeneration s b o g = Some (e, None))) ∧
  NoBucketNamed b ≠ ObjectNotFound ∧
  kind (NoBucketNamed b) = NotFound ∧ kind ObjectNotFound = NotFound.
Proof.
  split; [apply GetObjectWithGeneration_no_bucket|]. split; [|done].
  intros bm Hb. rewrite (GetObjectWithGeneration_firstWith _ _ _ _ _ Hb).
  unfold considered.
  destruct (decide (g ≠ 0)) as [Hg|Hg].
  - rewrite bool_decide_eq_true_2 by done. rewrite decide_False by done.
    rewrite firstWith_matches_full.
    split_and!; [done| | |].
    + by intros _ e ->.
    + rewrite <- (firstWith_None (λ e, ID e = (b, o, g))).
      destruct (firstWith _ _) as [e|]; split; try done.
      * by intros [obj [=]].
      * by exists (probe b o g).
    + intros _ k e Hk He Hact Hmin. rewrite firstWith_app_r by done.
      by rewrite (firstWith_lookup _ _ k e).
  - assert (g = 0) as -> by lia.
    rewrite bool_decide_eq_false_2 by done. rewrite decide_True by done.
    rewrite firstWith_matches_logical.
    split_and!; [|done| |done].
    + by intros _ e ->.
    + rewrite <- (firstWith_None (λ e, IDNoGen e = (b, o))).
      destruct (firstWith _ _) as [e|]; split; try done.
      * by intros [obj [=]].
      * by exists (probe b o 0).
Qed.

Lemma Demo_versioned_reachable : reachable Demo.versioned.
Proof.
  apply (run_reachable (Demo.writes true) emptyStorage);
    [apply reachable_empty | vm_compute; reflexivity].
Qed.

Lemma Demo_unversioned_reachable : reachable Demo.unversioned.
Proof.
  apply (run_reachable (Demo.writes false) emptyStorage);
    [apply reachable_empty | vm_compute; reflexivity].
Qed.

Lemma Demo_regenerated_reachable : reachable Demo.regenerated.
Proof.
  apply (run_reachable Demo.rewrites emptyStorage);
    [apply reachable_empty | vm_compute; reflexivity].
Qed.

Lemma Demo_versioned_bucket :
  buckets Demo.versioned !! "b" = Some (Demo.bucketOf Demo.versioned) ∧
  activeObjects (Demo.bucketOf Demo.versioned) = [Demo.activeY] ∧
  archivedObjects (Demo.bucketOf Demo.versioned) = [Demo.archivedX].
Proof. by vm_compute. Qed.

Lemma Demo_regenerated_bucket :
  buckets Demo.regenerated !! "b" = Some (Demo.bucketOf Demo.regenerated) ∧
  activeObjects (Demo.bucketOf Demo.regenerated) = [Demo.objY5] ∧
  archivedObjects (Demo.bucketOf Demo.regenerated) = [Demo.archivedX5].
Proof. by vm_compute. Qed.

(** The generation round trip of the spec: the archived version is returned
    for its own generation. *)
Lemma GetObjectWithGeneration_spec_witness :
  GetObjectWithGeneration Demo.versioned "b" "o" Demo.genX
  = Some (Demo.archivedX, None).
Proof.
  destruct Demo_versioned_bucket as (Hb & Hact & Harch).
  destruct (GetObjectWithGeneration_spec Demo.versioned "b" "o" Demo.genX)
    as (_ & Hspec & _).
  destruct (Hspec _ Hb) as (_ & _ & _ & Hround).
  apply (Hround ltac:(done) 0%nat).
  - by rewrite Harch.
  - done.
  - rewrite Hact. by apply Forall_singleton.
  - intros j y _ Hj. lia.
Defined.

(** C3 as stated fails: in a store that two writes with one caller-supplied
    generation reach, the archived version carries generation 5, yet the
    lookup for generation 5 returns another object, the active one. *)
Lemma GetObjectWithGeneration_archived_shadowed :
  reachable Demo.regenerated ∧
  buckets Demo.regenerated !! "b" = Some (Demo.bucketOf Demo.regenerated) ∧
  Demo.archivedX5 ∈ archivedObjects (Demo.bucketOf Demo.regenerated) ∧
  ID Demo.archivedX5 = ("b", "o", 5) ∧
  GetObjectWithGeneration Demo.regenerated "b" "o" 5
  = Some (Demo.objY5, None) ∧
  Demo.objY5 ≠ Demo.archivedX5.
Proof.
  split; [apply Demo_regenerated_reachable|].
  destruct Demo_regenerated_bucket as (Hb & _ & Harch).
  split_and!; [done| |done|by vm_compute|done].
  rewrite Harch. apply list_elem_of_singleton. done.
Qed.

(** ** What [DeleteObject] computes *)

Lemma findObject_of_list_find obj l mg (k : nat) e :
  list_find (matches mg obj) l = Some (k, e) →
  findObject obj l mg = Z.of_nat k.
Proof. intros Hf. by rewrite findObject_find, Hf. Qed.

Lemma DeleteObject_found now s b o bm (k : nat) e :
  buckets s !! b = Some bm →
  list_find (matches false (probe b o 0)) (activeObjects bm) = Some (k, e) →
  DeleteObject now s b o =
  Some (mkStorageMemory
          (<[b := mkBucketInMemory (bucket bm)
                    (swapRemove (activeObjects bm) k)
                    (if VersioningEnabled (bucket bm)
                     then archivedObjects bm
                          ++ [withDeleted e (FormatRFC3339 now)]
                     else archivedObjects bm)]> (buckets s)),
        None).
Proof.
  intros Hb Hf. unfold DeleteObject.
  rewrite (GetObject_unfold _ _ _ _ Hb), Hf. cbn.
  rewrite (getBucketInMemory_Some _ _ _ Hb).
  pose proof (findObject_of_list_find _ _ _ _ _ Hf) as Hk.
  apply list_find_Some in Hf as (He & _).
  destruct (findObject_stored _ _ _ _ Hk He) as [Hfull Hlog].
  by rewrite (deleteObject_found now bm e true k) by (done || lia).
Qed.

Lemma DeleteObject_no_object now s b o bm :
  buckets s !! b = Some bm →
  list_find (matches false (probe b o 0)) (activeObjects bm) = None →
  DeleteObject now s b o = Some (s, Some ObjectNotFound).
Proof.
  intros Hb Hf. unfold DeleteObject.
  by rewrite (GetObject_unfold _ _ _ _ Hb), Hf.
Qed.

Lemma DeleteObject_no_bucket now s b o :
  buckets s !! b = None →
  DeleteObject now s b o = Some (s, Some (NoBucketNamed b)).
Proof.
  intros Hb. unfold DeleteObject, GetObject.
  by rewrite GetObjectWithGeneration_no_bucket.
Qed.

(** After the removal of the only entry of a logical identity, the lookup of
    the current version fails. *)
Lemma GetObject_after_removal s b o bm (k : nat) e arch :
  NoDup (IDNoGen <$> activeObjects bm) →
  list_find (matches false (probe b o 0)) (activeObjects bm) = Some (k, e) →
  GetObject
    (mkStorageMemory
       (<[b := mkBucketInMemory (bucket bm)
                 (swapRemove (activeObjects bm) k) arch]> (buckets s)))
    b o
  = Some (probe b o 0, Some ObjectNotFound).
Proof.
  intros Hnd Hf. apply list_find_Some in Hf as (He & Hm & _).
  erewrite GetObject_unfold by apply lookup_insert_eq. cbn.
  assert (list_find (matches false (probe b o 0))
            (swapRemove (activeObjects bm) k) = None) as ->; [|done].
  apply list_find_None.
  eapply Forall_impl; [by eapply unique_swapRemove|].
  cbn. intros y Hy Hmy. apply Hy. cbn in Hm, Hmy. congruence.
Qed.

(** ** [deleteObject] with versioning *)

(** C4, amended. With versioning on, when [deleteObject] finds the entry
    [stored] at position [k], it returns; the object appended to the archive
    is the ARGUMENT with [Deleted] set to the formatted current time, which is
    the stored entry so stamped when the argument is the stored entry (as in
    [DeleteObject], which passes the result of [GetObject]); the entry that
    leaves the active list is the first one with the logical identity of the
    argument, at a position [j <= k], and it is the matched one when the match
    was by logical identity or when the active list has at most one entry per
    logical identity. At the engine, in a store where active lists have at
    most one entry per logical identity: after [DeleteObject] of an existing
    object [e] of a bucket with versioning, [GetObject] fails with the
    object-level not-found error, [e] with its stamp is listed by
    [ListObjects(bucket, true)], and [GetObjectWithGeneration] returns it for
    its generation when that generation is not zero and no entry archived
    before carries the same full identity. *)
Theorem deleteObject_versioned :
  (∀ now bm obj mg (k : nat) stored,
     VersioningEnabled (bucket bm) = true →
     list_find (matches mg obj) (activeObjects bm) = Some (k, stored) →
     ∃ (j : nat) first bm',
       list_find (matches false obj) (activeObjects bm) = Some (j, first) ∧
       (j ≤ k)%nat ∧
       deleteObject now bm obj mg = Some bm' ∧
       bucket bm' = bucket bm ∧
       archivedObjects bm' =
         archivedObjects bm ++ [withDeleted obj (FormatRFC3339 now)] ∧
       activeObjects bm' = swapRemove (activeObjects bm) j ∧
       activeObjects bm' ≡ₚ delete j (activeObjects bm) ∧
       (obj = stored →
          archivedObjects bm' =
            archivedObjects bm ++ [withDeleted stored (FormatRFC3339 now)]) ∧
       (mg = false → j = k) ∧
       (uniqueActive bm → j = k)) ∧
  (∀ now s b o bm e,
     store_inv s →
     buckets s !! b = Some bm →
     VersioningEnabled (bucket bm) = true →
     GetObject s b o = Some (e, None) →
     ∃ s',
       DeleteObject now s b o = Some (s', None) ∧
       GetObject s' b o = Some (probe b o 0, Some ObjectNotFound) ∧
       (ListObjects s' b true).2 = None ∧
       withDeleted e (FormatRFC3339 now) ∈ (ListObjects s' b true).1 ∧
       (Generation e ≠ 0 →
        Forall (λ a, ID a ≠ ID e) (archivedObjects bm) →
        GetObjectWithGeneration s' b o (Generation e)
        = Some (withDeleted e (FormatRFC3339 now), None))).
Proof.
  split.
  - intros now bm obj mg k stored Hv Hf.
    pose proof (findObject_of_list_find _ _ _ _ _ Hf) as Hk.
    apply list_find_Some in Hf as (Hstored & Hm & Hmin).
    destruct (findObject_logical_of_found obj (activeObjects bm) mg)
      as [H0 H1]; [lia|].
    destruct (findObject_found obj (activeObjects bm) false)
      as (j & first & Hj & Hfirst & Hmj & Hminj); [lia|].
    assert (j ≤ k)%nat as Hjk.
    { destruct (decide (j ≤ k)%nat) as [|Hgt]; [done|].
      destruct (Hminj k stored Hstored); [lia|]. by eapply matches_logical. }
    exists j, first. eexists. split_and!.
    + by apply list_find_Some.
    + done.
    + apply deleteObject_found; [lia|done].
    + done.
    + cbn. by rewrite Hv.
    + done.
    + cbn. apply swapRemove_perm. lia.
    + intros ->. cbn. by rewrite Hv.
    + intros ->. lia.
    + intros Hu. pose proof (findObject_logical_same _ _ _ _ Hu Hk). lia.
  - intros now s b o bm e Hinv Hb Hv Hget.
    rewrite (GetObject_unfold _ _ _ _ Hb) in Hget.
    destruct (list_find _ _) as [[k e']|] eqn:Hf; [|done].
    injection Hget as ->.
    destruct (Hinv _ _ Hb) as [Hu _].
    eexists. split; [by eapply DeleteObject_found|]. rewrite Hv.
    split; [by eapply GetObject_after_removal|].
    erewrite ListObjects_versions by apply lookup_insert_eq. cbn.
    split; [done|]. split.
    { rewrite !elem_of_app, list_elem_of_singleton. auto. }
    intros Hg Harch.
    erewrite GetObjectWithGeneration_firstWith by apply lookup_insert_eq.
    unfold considered. cbn. rewrite decide_True by done.
    rewrite bool_decide_eq_true_2 by done.
    apply list_find_Some in Hf as (He & Hm & _).
    assert (ID (probe b o (Generation e)) = ID e) as Hid.
    { unfold ID. cbn in Hm. by rewrite <- Hm. }
    rewrite !firstWith_app_r.
    + unfold firstWith. cbn. rewrite decide_True; [done|].
      unfold matches. by rewrite Hid.
    + eapply Forall_impl; [exact Harch|]. cbn. intros a Ha. by rewrite Hid.
    + eapply Forall_impl; [by eapply unique_swapRemove|].
      cbn. intros y Hy Hmy. apply Hy. unfold matches in Hmy.
      rewrite Hid in Hmy. by apply (f_equal fst) in Hmy.
Qed.

Lemma deleteObject_versioned_witness :
  ∃ s', DeleteObject Demo.t3 Demo.versioned "b" "o" = Some (s', None) ∧
    GetObject s' "b" "o" = Some (probe "b" "o" 0, Some ObjectNotFound) ∧
    GetObjectWithGeneration s' "b" "o" Demo.genY
    = Some (withDeleted Demo.activeY (FormatRFC3339 Demo.t3), None).
Proof.
  destruct deleteObject_versioned as [_ Hengine].
  destruct Demo_versioned_bucket as (Hb & Hact & Harch).
  destruct (Hengine Demo.t3 Demo.versioned "b" "o"
              (Demo.bucketOf Demo.versioned) Demo.activeY)
    as (s' & Hdel & Hget & _ & _ & Hgen).
  - apply store_inv_reachable, Demo_versioned_reachable.
  - exact Hb.
  - reflexivity.
  - vm_compute. reflexivity.
  - exists s'. split_and!; [done|done|]. apply Hgen; [done|].
    rewrite Harch. by apply Forall_singleton.
Defined.

(** C4 as stated fails twice. At the bucket: the argument matches the stored
    entry by full identity but has another payload, and the archive receives
    the argument, not the stored entry. At the engine: after two writes with
    one caller-supplied generation and a delete, the lookup for that
    generation returns the version archived first, not the deleted one. *)
Lemma deleteObject_versioned_counterexample :
  (VersioningEnabled (bucket (Demo.bucketOf Demo.versioned)) = true ∧
   list_find (matches true (probe "b" "o" Demo.genY))
     (activeObjects (Demo.bucketOf Demo.versioned)) = Some (0%nat, Demo.activeY) ∧
   ∃ bm', deleteObject Demo.t3 (Demo.bucketOf Demo.versioned)
            (probe "b" "o" Demo.genY) true = Some bm' ∧
     archivedObjects bm' =
       archivedObjects (Demo.bucketOf Demo.versioned)
       ++ [withDeleted (probe "b" "o" Demo.genY) (FormatRFC3339 Demo.t3)] ∧
     withDeleted (probe "b" "o" Demo.genY) (FormatRFC3339 Demo.t3)
     ≠ withDeleted Demo.activeY (FormatRFC3339 Demo.t3)) ∧
  (reachable Demo.regenerated ∧
   GetObject Demo.regenerated "b" "o" = Some (Demo.objY5, None) ∧
   ∃ s', DeleteObject Demo.t3 Demo.regenerated "b" "o" = Some (s', None) ∧
     GetObjectWithGeneration s' "b" "o" 5 = Some (Demo.archivedX5, None) ∧
     Demo.archivedX5 ≠ withDeleted Demo.objY5 (FormatRFC3339 Demo.t3)).
Proof.
  split.
  - split_and!; [done|by vm_compute|].
    eexists. split_and!; [by vm_compute|by vm_compute|done].
  - split_and!; [apply Demo_regenerated_reachable|by vm_compute|].
    eexists. split_and!; [by vm_compute|by vm_compute|done].
Qed.

(** ** [deleteObject] without a match, and without versioning *)

(** C5. When no active entry matches the argument, [deleteObject] returns the
    bucket as it was. When the bucket has no versioning, its active list has
    at most one entry per logical identity and the entry [stored] at position
    [k] matches: [deleteObject] returns, [stored] leaves the active list (the
    others stay, the last one taking its place), no entry with its logical
    identity stays, and the archive is unchanged. At the engine, in a
    reachable store: after [DeleteObject] of an existing object of a bucket
    without versioning, [GetObject] fails with the object-level not-found
    error and [ListObjects(bucket, true)] lists neither the object nor any
    entry of its name. *)
Theorem deleteObject_unmatched_or_unversioned :
  (∀ now bm obj mg,
     list_find (matches mg obj) (activeObjects bm) = None →
     deleteObject now bm obj mg = Some bm) ∧
  (∀ now bm obj mg (k : nat) stored,
     VersioningEnabled (bucket bm) = false →
     uniqueActive bm →
     list_find (matches mg obj) (activeObjects bm) = Some (k, stored) →
     ∃ bm',
       deleteObject now bm obj mg = Some bm' ∧
       bucket bm' = bucket bm ∧
       activeObjects bm' = swapRemove (activeObjects bm) k ∧
       activeObjects bm' ≡ₚ delete k (activeObjects bm) ∧
       Forall (λ y, IDNoGen y ≠ IDNoGen stored) (activeObjects bm') ∧
       archivedObjects bm' = archivedObjects bm) ∧
  (∀ now s b o bm e,
     reachable s →
     buckets s !! b = Some bm →
     VersioningEnabled (bucket bm) = false →
     GetObject s b o = Some (e, None) →
     ∃ s',
       DeleteObject now s b o = Some (s', None) ∧
       GetObject s' b o = Some (probe b o 0, Some ObjectNotFound) ∧
       (ListObjects s' b true).2 = None ∧
       Forall (λ y, IDNoGen y ≠ (b, o)) (ListObjects s' b true).1 ∧
       e ∉ (ListObjects s' b true).1).
Proof.
  split_and!.
  - intros now bm obj mg Hf. apply deleteObject_missing.
    rewrite findObject_find, Hf. lia.
  - intros now bm obj mg k stored Hv Hu Hf.
    pose proof (findObject_of_list_find _ _ _ _ _ Hf) as Hk.
    pose proof (findObject_logical_same _ _ _ _ Hu Hk) as Hj.
    apply list_find_Some in Hf as (Hstored & _).
    pose proof (lookup_lt_Some _ _ _ Hstored) as Hlt.
    eexists. split; [apply (deleteObject_found _ _ _ _ k); [lia|done]|].
    cbn. rewrite Hv. split_and!; try done.
    + by apply swapRemove_perm.
    + by apply unique_swapRemove.
  - intros now s b o bm e Hs Hb Hv Hget.
    destruct (store_inv_reachable s Hs _ _ Hb) as [Hu _].
    pose proof (archiveOnlyVersioned_reachable s Hs _ _ Hb Hv) as Hempty.
    rewrite (GetObject_unfold _ _ _ _ Hb) in Hget.
    destruct (list_find _ _) as [[k e']|] eqn:Hf; [|done].
    injection Hget as ->.
    eexists. split; [by eapply DeleteObject_found|]. rewrite Hv, Hempty.
    split; [by eapply GetObject_after_removal|].
    erewrite ListObjects_versions by apply lookup_insert_eq. cbn.
    rewrite app_nil_r. apply list_find_Some in Hf as (He & Hm & _).
    assert (Forall (λ y, IDNoGen y ≠ (b, o))
              (swapRemove (activeObjects bm) k)) as Hgone.
    { eapply Forall_impl; [by eapply unique_swapRemove|].
      cbn. intros y Hy. cbn in Hm. change (b, o) with (IDNoGen (probe b o 0)).
      by rewrite Hm. }
    split_and!; [done|done|].
    intros Hin. rewrite Forall_forall in Hgone.
    apply (Hgone e Hin). symmetry. exact Hm.
Qed.

Lemma deleteObject_unmatched_or_unversioned_witness :
  ∃ s', DeleteObject Demo.t3 Demo.unversioned "b" "o" = Some (s', None) ∧
    GetObject s' "b" "o" = Some (probe "b" "o" 0, Some ObjectNotFound) ∧
    Forall (λ y, IDNoGen y ≠ ("b", "o")) (ListObjects s' "b" true).1.
Proof.
  destruct deleteObject_unmatched_or_unversioned as (_ & _ & Hengine).
  destruct (Hengine Demo.t3 Demo.unversioned "b" "o"
              (Demo.bucketOf Demo.unversioned) Demo.activeY)
    as (s' & Hdel & Hget & _ & Hlist & _).
  - apply Demo_unversioned_reachable.
  - vm_compute. reflexivity.
  - reflexivity.
  - vm_compute. reflexivity.
  - by exists s'.
Defined.

(** ** [CreateBucket] *)

(** C6. When no bucket has the name, [CreateBucket] succeeds and the store
    gains an empty bucket with that name, the given flag and the current
    time, the other buckets being unchanged. When a bucket with the name and
    the same flag exists, it succeeds and the store is unchanged. When a
    bucket with the name and another flag exists, it fails with the conflict
    error and the store is unchanged. *)
Theorem CreateBucket_spec now s name v :
  (buckets s !! name = None →
     ∃ s', CreateBucket now s name v = (s', None) ∧
       buckets s' !! name
       = Some (mkBucketInMemory (mkBucket name v now) [] []) ∧
       ∀ other, other ≠ name → buckets s' !! other = buckets s !! other) ∧
  (∀ bm, buckets s !! name = Some bm →
     VersioningEnabled (bucket bm) = v →
     CreateBucket now s name v = (s, None)) ∧
  (∀ bm, buckets s !! name = Some bm →
     VersioningEnabled (bucket bm) ≠ v →
     CreateBucket now s name v = (s, Some (BucketExistsDifferently name)) ∧
     kind (BucketExistsDifferently name) = Conflict).
Proof.
  unfold CreateBucket. split_and!.
  - intros Hb. rewrite (getBucketInMemory_None _ _ Hb). eexists.
    split; [done|]. cbn. split; [apply lookup_insert_eq|].
    intros other Hne. by apply lookup_insert_ne.
  - intros bm Hb Hv. rewrite (getBucketInMemory_Some _ _ _ Hb).
    by rewrite decide_False by (by intros ?).
  - intros bm Hb Hv. rewrite (getBucketInMemory_Some _ _ _ Hb).
    by rewrite decide_True by done.
Qed.

Lemma CreateBucket_spec_witness :
  CreateBucket Demo.t3 Demo.versioned "b" false
  = (Demo.versioned, Some (BucketExistsDifferently "b")) ∧
  CreateBucket Demo.t3 Demo.versioned "b" true = (Demo.versioned, None) ∧
  ∃ s', CreateBucket Demo.t3 Demo.versioned "c" true = (s', None) ∧
    buckets s' !! "c"
    = Some (mkBucketInMemory (mkBucket "c" true Demo.t3) [] []).
Proof.
  destruct Demo_versioned_bucket as (Hb & _).
  split_and!.
  - destruct (CreateBucket_spec Demo.t3 Demo.versioned "b" false)
      as (_ & _ & Hconflict).
    by destruct (Hconflict _ Hb ltac:(done)).
  - destruct (CreateBucket_spec Demo.t3 Demo.versioned "b" true)
      as (_ & Hsame & _).
    by apply (Hsame _ Hb).
  - destruct (CreateBucket_spec Demo.t3 Demo.versioned "c" true)
      as (Hnew & _ & _).
    destruct Hnew as (s' & Hc & Hl & _); [by vm_compute|]. by exists s'.
Defined.

(** ** [CreateObject] *)

Lemma resolved_elem_of_addObject tGen tDel bm obj bm' :
  addObject tGen tDel bm obj = Some bm' →
  resolved tGen obj ∈ activeObjects bm'.
Proof.
  destruct (decide (findObject obj (activeObjects bm) false >= 0)) as [Hf|Hf].
  - apply findObject_found in Hf as (k & old & Hk & Hold & _).
    erewrite addObject_found by done. intros [= <-]. cbn.
    apply list_elem_of_lookup. exists k.
    apply list_lookup_insert_eq. by eapply lookup_lt_Some.
  - rewrite addObject_fresh by lia. intros [= <-]. cbn.
    apply elem_of_app. right. by apply list_elem_of_singleton.
Qed.

Lemma resolved_fresh tGen obj :
  Generation obj = 0 → 1000 <= UnixNano tGen →
  Generation (resolved tGen obj) = UnixNano tGen / 1000 ∧
  Generation (resolved tGen obj) ≠ 0.
Proof.
  intros Hg Hclock. cbn. unfold getNewGenerationIfZero.
  rewrite decide_True by done. rewrite Z.quot_div_nonneg by lia.
  split; [done|].
  pose proof (Z.div_le_mono 1000 (UnixNano tGen) 1000 ltac:(lia) Hclock) as Hle.
  rewrite Z.div_same in Hle by lia. lia.
Qed.

(** C7. [CreateObject] returns, with no error. The bucket of the object is
    afterwards the result of [addObject] on the bucket it was, or, when there
    was none, on a new empty bucket without versioning, so that it then holds
    the object alone; the other buckets are unchanged. The stored object is
    the argument with its generation resolved: the argument itself when its
    generation is not zero, and the argument with the clock reading in
    microseconds when it is zero, a non-zero value for every reading at least
    a microsecond after the epoch. *)
Theorem CreateObject_spec r s obj :
  ∃ s' bm',
    CreateObject r s obj = Some (s', None) ∧
    buckets s' = <[BucketName obj := bm']> (buckets s) ∧
    resolved (atGeneration r) obj ∈ activeObjects bm' ∧
    (buckets s !! BucketName obj = None →
       bm' = mkBucketInMemory (mkBucket (BucketName obj) false (atCreate r))
               [resolved (atGeneration r) obj] []) ∧
    (∀ bm, buckets s !! BucketName obj = Some bm →
       addObject (atGeneration r) (atDelete r) bm obj = Some bm') ∧
    (Generation obj ≠ 0 → resolved (atGeneration r) obj = obj) ∧
    (Generation obj = 0 → 1000 <= UnixNano (atGeneration r) →
       Generation (resolved (atGeneration r) obj)
       = UnixNano (atGeneration r) / 1000 ∧
       Generation (resolved (atGeneration r) obj) ≠ 0).
Proof.
  unfold CreateObject.
  destruct (buckets s !! BucketName obj) as [bm|] eqn:Hb.
  - rewrite (getBucketInMemory_Some _ _ _ Hb).
    destruct (addObject_total (atGeneration r) (atDelete r) bm obj)
      as [bm' Hadd].
    rewrite Hadd. cbn. eexists. exists bm'. split_and!; try done.
    + by eapply resolved_elem_of_addObject.
    + by intros ? [= <-].
    + apply resolved_nonzero.
    + by apply resolved_fresh.
  - rewrite (getBucketInMemory_None _ _ Hb).
    rewrite addObject_fresh by (cbn; lia). cbn.
    eexists _, _. split_and!; try done.
    + cbn. by apply list_elem_of_singleton.
    + apply resolved_nonzero.
    + by apply resolved_fresh.
Qed.

Lemma CreateObject_spec_witness :
  ∃ s' bm',
    CreateObject Demo.r1 emptyStorage Demo.objX = Some (s', None) ∧
    bm' = mkBucketInMemory (mkBucket "b" false Demo.t1)
            [resolved Demo.t1 Demo.objX] [] ∧
    Generation (resolved Demo.t1 Demo.objX) = UnixNano Demo.t1 / 1000 ∧
    Generation (resolved Demo.t1 Demo.objX) ≠ 0.
Proof.
  destruct (CreateObject_spec Demo.r1 emptyStorage Demo.objX)
    as (s' & bm' & Hc & _ & _ & Hnew & _ & _ & Hfresh).
  exists s', bm'. split; [exact Hc|]. split; [by apply Hnew|].
  apply Hfresh; [reflexivity|]. cbn. lia.
Defined.

(** ** [GetObject] *)

(** C8. [GetObject] returns what [GetObjectWithGeneration] returns for
    generation zero, and both return what the spec describes: the current
    active version, that is the first active entry of the bucket with the
    logical identity (bucket, name), the object-level not-found error when
    there is none and the bucket-level one when the bucket is absent. *)
Theorem GetObject_refines s bucketName objectName :
  GetObject s bucketName objectName
  = GetObjectWithGeneration s bucketName objectName 0 ∧
  GetObjectWithGeneration s bucketName objectName 0
  = currentVersion s bucketName objectName.
Proof.
  split; [reflexivity|]. unfold currentVersion.
  destruct (buckets s !! bucketName) as [bm|] eqn:Hb.
  - rewrite (GetObjectWithGeneration_unfold _ _ _ _ _ Hb).
    unfold considered. rewrite decide_False by (by intros H; apply H).
    rewrite bool_decide_eq_false_2 by (by intros H; apply H).
    rewrite (list_find_ext _ (λ o, IDNoGen o = (bucketName, objectName))).
    + done.
    + intros e. unfold matches. split; intros He; by symmetry.
  - by apply GetObjectWithGeneration_no_bucket.
Qed.

(** ** Bounds of the delete path *)

(** C9. [deleteObject] always returns: no index of the delete path is out of
    range. Whenever its search of the active list succeeded, the second
    search, by logical identity, that [deleteFromObjectList] makes on the
    same list succeeds too with an index inside the list, so the reads of
    [objects[index]] and [objects[len-1]], the assignment and the truncation
    are in range, and [deleteFromObjectList] and [mvToArchive] return. *)
Theorem deleteObject_in_bounds now bm obj matchGeneration :
  is_Some (deleteObject now bm obj matchGeneration) ∧
  (findObject obj (activeObjects bm) matchGeneration >= 0 →
   let objects := activeObjects bm in
   let index := findObject obj objects false in
   0 <= index < Z.of_nat (length objects) ∧
   is_Some (slice_index objects index) ∧
   is_Some (slice_index objects (Z.of_nat (length objects) - 1)) ∧
   (∀ x, ∃ objects', slice_assign objects index x = Some objects' ∧
                     is_Some (slice_init objects')) ∧
   is_Some (deleteFromObjectList bm obj true) ∧
   is_Some (mvToArchive bm (withDeleted obj (FormatRFC3339 now)))).
Proof.
  split; [apply deleteObject_total|]. intros Hf. cbv zeta.
  pose proof (findObject_logical_of_found _ _ _ Hf) as Hrange.
  destruct (findObject_found obj (activeObjects bm) false)
    as (j & first & Hj & Hfirst & _); [lia|].
  pose proof (lookup_lt_Some _ _ _ Hfirst) as Hlt.
  rewrite Hj. split_and!; try lia.
  - rewrite slice_index_of_nat. by eexists.
  - rewrite slice_last, last_lookup. apply lookup_lt_is_Some. lia.
  - intros x. eexists. split; [by apply slice_assign_of_nat|].
    rewrite slice_init_nonempty; [done|].
    intros Hnil%(f_equal length). rewrite length_insert in Hnil.
    simpl in Hnil. lia.
  - by erewrite deleteFromObjectList_active.
  - unfold mvToArchive. erewrite deleteFromObjectList_active; [done|].
    cbn. by rewrite findObject_withDeleted.
Qed.

Lemma deleteObject_in_bounds_witness :
  0 <= findObject Demo.activeY
         (activeObjects (Demo.bucketOf Demo.versioned)) false
    < Z.of_nat (length (activeObjects (Demo.bucketOf Demo.versioned))) ∧
  is_Some (mvToArchive (Demo.bucketOf Demo.versioned)
             (withDeleted Demo.activeY (FormatRFC3339 Demo.t3))).
Proof.
  destruct (deleteObject_in_bounds Demo.t3 (Demo.bucketOf Demo.versioned)
              Demo.activeY true) as [_ Hfound].
  destruct Hfound as (Hrange & _ & _ & _ & _ & Hmv).
  - vm_compute. discriminate.
  - by split.
Defined.

(** ** Versions that share a full identity *)

(** After [addObject] the stored object is the first active entry with its
    logical identity. *)
Lemma addObject_position tGen tDel bm obj bm' :
  addObject tGen tDel bm obj = Some bm' →
  ∃ k : nat,
    list_find (matches false obj) (activeObjects bm')
    = Some (k, resolved tGen obj).
Proof.
  destruct (decide (findObject obj (activeObjects bm) false >= 0)) as [Hf|Hf].
  - apply findObject_found in Hf as (k & old & Hk & Hold & Hm & Hmin).
    erewrite addObject_found by done. intros [= <-]. cbn. exists k.
    apply list_find_Some. split_and!.
    + apply list_lookup_insert_eq. by eapply lookup_lt_Some.
    + done.
    + intros j y Hj Hlt. rewrite list_lookup_insert_ne in Hj by lia.
      by eapply Hmin.
  - assert (findObject obj (activeObjects bm) false < 0) as Hlt by lia.
    apply findObject_missing in Hlt.
    rewrite addObject_fresh by lia. intros [= <-]. cbn.
    exists (length (activeObjects bm)).
    apply list_find_Some. split_and!.
    + by rewrite lookup_app_r, Nat.sub_diag.
    + done.
    + intros j y Hj Hjlt. rewrite lookup_app_l in Hj by done.
      rewrite Forall_forall in Hlt. apply Hlt.
      by eapply list_elem_of_lookup_2.
Qed.

(** C10. In a bucket with versioning, two [CreateObject] calls that carry one
    name and one non-zero generation leave an active entry, the second
    object, and an archived entry, the first object with its stamp, of one
    full identity; [ListObjects(bucket, true)] holds both, at two positions;
    and [GetObjectWithGeneration] for that generation returns the active
    one. *)
Theorem duplicate_full_identity r1 r2 s bm obj1 obj2 :
  buckets s !! BucketName obj1 = Some bm →
  VersioningEnabled (bucket bm) = true →
  IDNoGen obj1 = IDNoGen obj2 →
  Generation obj1 = Generation obj2 →
  Generation obj1 ≠ 0 →
  ∃ s1 s2 bm2,
    CreateObject r1 s obj1 = Some (s1, None) ∧
    CreateObject r2 s1 obj2 = Some (s2, None) ∧
    buckets s2 !! BucketName obj1 = Some bm2 ∧
    let retired := withDeleted obj1 (FormatRFC3339 (atDelete r2)) in
    obj2 ∈ activeObjects bm2 ∧
    retired ∈ archivedObjects bm2 ∧
    ID obj2 = ID retired ∧
    (∃ i j : nat, i ≠ j ∧
       (ListObjects s2 (BucketName obj1) true).1 !! i = Some obj2 ∧
       (ListObjects s2 (BucketName obj1) true).1 !! j = Some retired) ∧
    GetObjectWithGeneration s2 (BucketName obj1) (Name obj1) (Generation obj1)
    = Some (obj2, None).
Proof.
  intros Hb Hv Hid Hgen Hg.
  assert (BucketName obj2 = BucketName obj1) as Hbn
    by (by apply (f_equal fst) in Hid).
  assert (resolved (atGeneration r1) obj1 = obj1) as Hr1
    by by apply resolved_nonzero.
  assert (resolved (atGeneration r2) obj2 = obj2) as Hr2
    by (apply resolved_nonzero; congruence).
  destruct (addObject_total (atGeneration r1) (atDelete r1) bm obj1)
    as [bm1 Hadd1].
  pose proof (addObject_bucket _ _ _ _ _ Hadd1) as Hbucket1.
  destruct (addObject_position _ _ _ _ _ Hadd1) as [k Hfind1].
  rewrite Hr1 in Hfind1.
  assert (list_find (matches false obj2) (activeObjects bm1) = Some (k, obj1))
    as Hfind2.
  { rewrite <- Hfind1. apply list_find_ext. intros e. unfold matches.
    by rewrite Hid. }
  pose proof (findObject_of_list_find _ _ _ _ _ Hfind2) as Hk2.
  apply list_find_Some in Hfind1 as (Hk & _ & Hmin).
  pose proof (lookup_lt_Some _ _ _ Hk) as Hlt.
  exists (mkStorageMemory (<[BucketName obj1 := bm1]> (buckets s))).
  eexists. eexists. cbv zeta. split_and!.
  - unfold CreateObject. rewrite (getBucketInMemory_Some _ _ _ Hb).
    by rewrite Hadd1.
  - unfold CreateObject. rewrite Hbn.
    erewrite getBucketInMemory_Some by apply lookup_insert_eq.
    erewrite addObject_found by done. cbn. reflexivity.
  - apply lookup_insert_eq.
  - cbn. rewrite Hr2. apply list_elem_of_lookup. exists k.
    by apply list_lookup_insert_eq.
  - cbn. rewrite Hbucket1, Hv. apply elem_of_app. right.
    by apply list_elem_of_singleton.
  - unfold ID. cbn. by rewrite <- Hid, Hgen.
  - erewrite ListObjects_versions by apply lookup_insert_eq. cbn.
    rewrite Hbucket1, Hv, Hr2.
    exists k, (length (activeObjects bm1) + length (archivedObjects bm1))%nat.
    split_and!.
    + lia.
    + rewrite lookup_app_l by (by rewrite length_insert).
      by apply list_lookup_insert_eq.
    + rewrite lookup_app_r by (rewrite length_insert; lia).
      rewrite length_insert.
      rewrite lookup_app_r by lia.
      by replace (_ - _ - _)%nat with 0%nat by lia.
  - erewrite GetObjectWithGeneration_unfold by apply lookup_insert_eq.
    unfold considered. rewrite decide_True by done.
    rewrite bool_decide_eq_true_2 by done. cbn. rewrite Hr2.
    erewrite list_find_app_l; [done|].
    apply list_find_Some. split_and!.
    + by apply list_lookup_insert_eq.
    + unfold matches, ID. cbn. rewrite <- Hgen, <- Hid. done.
    + intros j y Hj Hjlt Hmy. rewrite list_lookup_insert_ne in Hj by lia.
      apply (Hmin j y Hj Hjlt). by apply (f_equal fst) in Hmy.
Qed.

Lemma duplicate_full_identity_witness :
  ∃ s2,
    run [OpCreateObject Demo.r1 Demo.objX5; OpCreateObject Demo.r2 Demo.objY5]
      (CreateBucket Demo.t1 emptyStorage "b" true).1 = Some s2 ∧
    (ListObjects s2 "b" true).1 = [Demo.objY5; Demo.archivedX5] ∧
    ID Demo.objY5 = ID Demo.archivedX5 ∧
    GetObjectWithGeneration s2 "b" "o" 5 = Some (Demo.objY5, None).
Proof.
  destruct (duplicate_full_identity Demo.r1 Demo.r2
              (CreateBucket Demo.t1 emptyStorage "b" true).1
              (newBucketInMemory Demo.t1 "b" true) Demo.objX5 Demo.objY5)
    as (s1 & s2 & bm2 & Hc1 & Hc2 & _ & _ & _ & Hid & _ & Hget);
    [by vm_compute|done|done|done|done|].
  vm_compute in Hc1. injection Hc1 as <-.
  vm_compute in Hc2. injection Hc2 as <-.
  eexists. split_and!; [by vm_compute|by vm_compute|exact Hid|exact Hget].
Defined.

(** ** Every operation returns *)

Lemma GetObjectWithGeneration_total s b o g :
  is_Some (GetObjectWithGeneration s b o g).
Proof.
  destruct (buckets s !! b) as [bm|] eqn:Hb.
  - rewrite (GetObjectWithGeneration_unfold _ _ _ _ _ Hb).
    by destruct (list_find _ _) as [[??]|].
  - by rewrite GetObjectWithGeneration_no_bucket.
Qed.

Lemma CreateObject_total r s obj : is_Some (CreateObject r s obj).
Proof.
  unfold CreateObject. destruct (getBucketInMemory s (BucketName obj)) as [bm err].
  destruct (addObject_total (atGeneration r) (atDelete r)
              (if err is Some _
               then newBucketInMemory (atCreate r) (BucketName obj) false
               else bm) obj) as [bm' ->].
  done.
Qed.

Lemma DeleteObject_total now s b o : is_Some (DeleteObject now s b o).
Proof.
  destruct (buckets s !! b) as [bm|] eqn:Hb.
  - destruct (list_find (matches false (probe b o 0)) (activeObjects bm))
      as [[k e]|] eqn:Hf.
    + by erewrite DeleteObject_found.
    + by erewrite DeleteObject_no_object.
  - by rewrite DeleteObject_no_bucket.
Qed.

Lemma seedObject_total s ro : is_Some (seedObject s ro).
Proof.
  destruct ro as [r o]. unfold seedObject.
  destruct (addObject_total (atGeneration r) (atDelete r)
              (default zeroBucketInMemory
                 (buckets (CreateBucket (atCreate r) s (BucketName o) false).1
                    !! BucketName o)) o) as [bm' ->].
  done.
Qed.

Lemma NewStorageMemory_total objects : is_Some (NewStorageMemory objects).
Proof.
  unfold NewStorageMemory. generalize emptyStorage as s.
  induction objects as [|ro objects IH]; intros s; cbn; [done|].
  destruct (seedObject_total s ro) as [s1 ->]. apply IH.
Qed.

Lemma run_total ops s : is_Some (run ops s).
Proof.
  unfold run. revert s. induction ops as [|op ops IH]; intros s; cbn; [done|].
  assert (is_Some (exec op s)) as [[s1 err] ->]; [|apply IH].
  destruct op; cbn; [done|apply CreateObject_total|apply DeleteObject_total].
Qed.

(** ** The scenarios of the spec, evaluated *)

Example scenario_idempotent_bucket :
  CreateBucket Demo.t2 (CreateBucket Demo.t1 emptyStorage "b" true).1 "b" true
  = ((CreateBucket Demo.t1 emptyStorage "b" true).1, None).
Proof. by vm_compute. Qed.

Example scenario_overwrite_without_versioning :
  ListObjects Demo.unversioned "b" true = ([Demo.activeY], None).
Proof. by vm_compute. Qed.

Example scenario_archival_with_versioning :
  ListObjects Demo.versioned "b" true
  = ([Demo.activeY; Demo.archivedX], None).
Proof. by vm_compute. Qed.

Example scenario_generation_round_trip :
  GetObjectWithGeneration Demo.versioned "b" "o" Demo.genX
  = Some (Demo.archivedX, None) ∧
  GetObjectWithGeneration Demo.versioned "b" "o" 0
  = Some (Demo.activeY, None).
Proof. by vm_compute. Qed.

Example scenario_delete_without_versioning :
  ∃ s', DeleteObject Demo.t3 Demo.unversioned "b" "o" = Some (s', None) ∧
    GetObject s' "b" "o" = Some (probe "b" "o" 0, Some ObjectNotFound) ∧
    ListObjects s' "b" true = ([], None).
Proof. eexists. split_and!; by vm_compute. Qed.

Example scenario_delete_with_versioning :
  ∃ s', DeleteObject Demo.t3 Demo.versioned "b" "o" = Some (s', None) ∧
    GetObject s' "b" "o" = Some (probe "b" "o" 0, Some ObjectNotFound) ∧
    GetObjectWithGeneration s' "b" "o" Demo.genY
    = Some (withDeleted Demo.activeY (FormatRFC3339 Demo.t3), None) ∧
    ListObjects s' "b" true
    = ([Demo.archivedX; withDeleted Demo.activeY (FormatRFC3339 Demo.t3)],
       None).
Proof. eexists. split_and!; by vm_compute. Qed.

Example scenario_unknown_bucket :
  GetObject emptyStorage "b" "o" = Some (zeroObject, Some (NoBucketNamed "b")) ∧
  ListObjects emptyStorage "b" true = ([], Some (NoBucketNamed "b")) ∧
  DeleteObject Demo.t1 emptyStorage "b" "o"
  = Some (emptyStorage, Some (NoBucketNamed "b")) ∧
  (GetBucket emptyStorage "b").2 = Some (NoBucketNamed "b").
Proof. by vm_compute. Qed.

(** * Further properties of the backend *)

(** ** The search and the removal *)

(** X1. [findObject] returns [-1] exactly when no entry of the list passes
    the test (full identity with [matchGeneration], logical identity
    without), and otherwise the position of the first entry that passes it,
    a position inside the list. *)
Theorem findObject_first_match obj objectList matchGeneration :
  (findObject obj objectList matchGeneration = -1 ∧
   Forall (λ o, ¬ matches matchGeneration obj o) objectList) ∨
  (∃ (k : nat) o,
     findObject obj objectList matchGeneration = Z.of_nat k ∧
     (k < length objectList)%nat ∧
     objectList !! k = Some o ∧
     matches matchGeneration obj o ∧
     Forall (λ y, ¬ matches matchGeneration obj y) (take k objectList)).
Proof.
  rewrite findObject_find.
  destruct (list_find (matches matchGeneration obj) objectList) as [[k o]|]
    eqn:Hf.
  - right. apply list_find_Some in Hf as (Hk & Hm & Hmin).
    exists k, o. split_and!; try done.
    + by eapply lookup_lt_Some.
    + apply Forall_lookup. intros j y Hj.
      apply lookup_take_Some in Hj as [Hj Hlt]. by eapply Hmin.
  - left. split; [done|]. by apply list_find_None in Hf.
Qed.

Lemma deleteFromObjectList_selected bm obj active (k : nat) e :
  list_find (matches (negb active) obj) (selected bm active) = Some (k, e) →
  deleteFromObjectList bm obj active =
  Some (setSelected bm active (swapRemove (selected bm active) k)).
Proof.
  intros Hf. pose proof (findObject_of_list_find _ _ _ _ _ Hf) as Hk.
  apply list_find_Some in Hf as (He & _).
  pose proof (lookup_lt_Some _ _ _ He) as Hlt.
  unfold deleteFromObjectList, swapRemove, selected, setSelected in *.
  destruct active; cbn [negb] in *; rewrite Hk, slice_last.
  - destruct (last (activeObjects bm)) as [x|] eqn:Hlast.
    + cbn. rewrite slice_assign_of_nat by done. cbn.
      rewrite slice_init_nonempty.
      * cbn. by rewrite length_insert.
      * intros Hnil%(f_equal length). rewrite length_insert in Hnil.
        simpl in Hnil. lia.
    + apply last_None in Hlast. rewrite Hlast in Hlt. simpl in Hlt. lia.
  - destruct (last (archivedObjects bm)) as [x|] eqn:Hlast.
    + cbn. rewrite slice_assign_of_nat by done. cbn.
      rewrite slice_init_nonempty.
      * cbn. by rewrite length_insert.
      * intros Hnil%(f_equal length). rewrite length_insert in Hnil.
        simpl in Hnil. lia.
    + apply last_None in Hlast. rewrite Hlast in Hlt. simpl in Hlt. lia.
Qed.

Lemma deleteFromObjectList_unmatched bm obj active :
  list_find (matches (negb active) obj) (selected bm active) = None →
  deleteFromObjectList bm obj active = None.
Proof.
  intros Hf. unfold deleteFromObjectList.
  change (if active then activeObjects bm else archivedObjects bm)
    with (selected bm active).
  rewrite findObject_find, Hf. rewrite slice_last.
  destruct (last (selected bm active)) as [x|]; [|done]. cbn.
  unfold slice_assign. by rewrite decide_False by lia.
Qed.

(** X2. [deleteFromObjectList] searches the active list by logical identity
    and the archived list by full identity. When no entry of the chosen list
    passes the test it indexes the list with [-1]: a run-time panic. Otherwise
    it removes the first entry that passes it, the last entry taking its
    place, so that the chosen list keeps exactly its other entries, and it
    leaves the bucket record and the other list as they were. *)
Theorem deleteFromObjectList_spec bm obj active :
  match list_find (matches (negb active) obj) (selected bm active) with
  | None => deleteFromObjectList bm obj active = None
  | Some (k, _) =>
      ∃ bm', deleteFromObjectList bm obj active = Some bm' ∧
        bucket bm' = bucket bm ∧
        selected bm' active ≡ₚ delete k (selected bm active) ∧
        selected bm' active = swapRemove (selected bm active) k ∧
        selected bm' (negb active) = selected bm (negb active)
  end.
Proof.
  destruct (list_find _ _) as [[k e]|] eqn:Hf.
  - eexists. split; [by eapply deleteFromObjectList_selected|].
    apply list_find_Some in Hf as (He%lookup_lt_Some & _).
    destruct active; cbn; split_and!; try done; by apply swapRemove_perm.
  - by apply deleteFromObjectList_unmatched.
Qed.

(** ** What the bucket operations keep and add *)

Lemma addObject_elements tGen tDel bm obj bm' :
  addObject tGen tDel bm obj = Some bm' →
  (∀ x, x ∈ activeObjects bm' →
        x ∈ activeObjects bm ∨ x = resolved tGen obj) ∧
  (∀ x, x ∈ archivedObjects bm' →
        x ∈ archivedObjects bm ∨
        ∃ old, old ∈ activeObjects bm ∧ IDNoGen old = IDNoGen obj ∧
               x = withDeleted old (FormatRFC3339 tDel)) ∧
  archivedObjects bm `prefix_of` archivedObjects bm'.
Proof.
  destruct (decide (findObject obj (activeObjects bm) false >= 0)) as [Hf|Hf].
  - apply findObject_found in Hf as (k & old & Hk & Hold & Hm & _).
    erewrite addObject_found by done. intros [= <-]. cbn. split_and!.
    + intros x (j & Hj)%list_elem_of_lookup.
      destruct (decide (j = k)) as [->|Hne].
      * rewrite list_lookup_insert_eq in Hj by by eapply lookup_lt_Some.
        right. congruence.
      * rewrite list_lookup_insert_ne in Hj by done.
        left. by eapply list_elem_of_lookup_2.
    + destruct (VersioningEnabled (bucket bm)); [|by left].
      intros x [Hx|Hx%list_elem_of_singleton]%elem_of_app; [by left|].
      right. exists old. split_and!; [by eapply list_elem_of_lookup_2| |done].
      symmetry. exact Hm.
    + destruct (VersioningEnabled (bucket bm)); [by eexists|done].
  - rewrite addObject_fresh by lia. intros [= <-]. cbn. split_and!.
    + intros x [Hx|Hx%list_elem_of_singleton]%elem_of_app; auto.
    + by left.
    + done.
Qed.

Lemma deleteObject_elements now bm obj mg bm' :
  deleteObject now bm obj mg = Some bm' →
  (∀ x, x ∈ activeObjects bm' → x ∈ activeObjects bm) ∧
  (∀ x, x ∈ archivedObjects bm' →
        x ∈ archivedObjects bm ∨
        x = withDeleted obj (FormatRFC3339 now) ∧
        ∃ e, e ∈ activeObjects bm ∧ matches mg obj e) ∧
  archivedObjects bm `prefix_of` archivedObjects bm'.
Proof.
  destruct (decide (findObject obj (activeObjects bm) mg < 0)) as [Hf|Hf].
  - rewrite deleteObject_missing by done. intros [= <-]. auto.
  - destruct (findObject_found obj (activeObjects bm) mg)
      as (k & e & _ & He & Hm & _); [lia|].
    destruct (findObject_logical_of_found obj (activeObjects bm) mg) as [H0 _];
      [lia|].
    erewrite (deleteObject_found _ _ _ _
                (Z.to_nat (findObject obj (activeObjects bm) false)));
      [|lia|lia].
    intros [= <-]. cbn. split_and!.
    + intros x. apply swapRemove_elem_of.
    + destruct (VersioningEnabled (bucket bm)); [|by left].
      intros x [Hx|Hx%list_elem_of_singleton]%elem_of_app; [by left|].
      right. split; [done|]. exists e.
      split; [by eapply list_elem_of_lookup_2|done].
    + destruct (VersioningEnabled (bucket bm)); [by eexists|done].
Qed.

(** ** Buckets *)

Lemma Bucket_eta B :
  mkBucket (BName B) (VersioningEnabled B) (TimeCreated B) = B.
Proof. by destruct B. Qed.

Lemma GetBucket_Some s name bm :
  buckets s !! name = Some bm → GetBucket s name = (bucket bm, None).
Proof.
  intros Hb. unfold GetBucket. rewrite (getBucketInMemory_Some _ _ _ Hb).
  by rewrite Bucket_eta.
Qed.

Lemma GetBucket_None s name :
  buckets s !! name = None →
  GetBucket s name
  = (mkBucket EmptyString false zeroTime, Some (NoBucketNamed name)).
Proof.
  intros Hb. unfold GetBucket. by rewrite (getBucketInMemory_None _ _ Hb).
Qed.

(** X3. After [CreateBucket(name, v)], whatever it returned, [GetBucket(name)]
    succeeds. Its flag is [v] exactly when [CreateBucket] returned no error.
    The record is the new one (name, [v], current time) when the name was
    free, in which case [GetBucket] failed before with the bucket-level
    not-found error and the zero record; it is the old record, creation time
    included, when the name was taken. [GetBucket] of any other name is
    unchanged. *)
Theorem GetBucket_after_CreateBucket now s name v :
  ∃ B,
    GetBucket (CreateBucket now s name v).1 name = (B, None) ∧
    ((CreateBucket now s name v).2 = None ↔ VersioningEnabled B = v) ∧
    (buckets s !! name = None →
       B = mkBucket name v now ∧
       GetBucket s name
       = (mkBucket EmptyString false zeroTime, Some (NoBucketNamed name))) ∧
    (∀ bm, buckets s !! name = Some bm →
       B = bucket bm ∧ GetBucket s name = (B, None)) ∧
    (∀ other, other ≠ name →
       GetBucket (CreateBucket now s name v).1 other = GetBucket s other).
Proof.
  unfold CreateBucket. destruct (buckets s !! name) as [bm|] eqn:Hb.
  - rewrite (getBucketInMemory_Some _ _ _ Hb). exists (bucket bm).
    destruct (decide (VersioningEnabled (bucket bm) ≠ v)) as [Hv|Hv]; cbn.
    + split_and!; [by apply GetBucket_Some|by split|done| |done].
      intros ? [= <-]. split; [done|by apply GetBucket_Some].
    + split_and!; [by apply GetBucket_Some| |done| |done].
      * split; [|done]. intros _.
        by destruct (decide (VersioningEnabled (bucket bm) = v)).
      * intros ? [= <-]. split; [done|by apply GetBucket_Some].
  - rewrite (getBucketInMemory_None _ _ Hb). cbn. eexists. split_and!.
    + apply GetBucket_Some. cbn. apply lookup_insert_eq.
    + done.
    + intros _. split; [done|by apply GetBucket_None].
    + done.
    + intros other Hne. unfold GetBucket, getBucketInMemory. cbn.
      by rewrite lookup_insert_ne.
Qed.

Lemma GetBucket_after_CreateBucket_witness :
  GetBucket (CreateBucket Demo.t1 emptyStorage "b" true).1 "b"
  = (mkBucket "b" true Demo.t1, None) ∧
  GetBucket emptyStorage "b"
  = (mkBucket EmptyString false zeroTime, Some (NoBucketNamed "b")).
Proof.
  destruct (GetBucket_after_CreateBucket Demo.t1 emptyStorage "b" true)
    as (B & Hget & _ & Hnew & _).
  destruct Hnew as [-> Hbefore]; [done|]. by split.
Defined.

(** What one step leaves of a bucket: the bucket, its record and its archived
    entries. *)
Lemma kept_refl bm :
  bucket bm = bucket bm ∧ archivedObjects bm `prefix_of` archivedObjects bm.
Proof. done. Qed.

Lemma kept_insert (m : gmap string bucketInMemory) key new name bm :
  m !! name = Some bm →
  (∀ old, m !! key = Some old →
     bucket new = bucket old ∧
     archivedObjects old `prefix_of` archivedObjects new) →
  ∃ bm', <[key := new]> m !! name = Some bm' ∧
    bucket bm' = bucket bm ∧
    archivedObjects bm `prefix_of` archivedObjects bm'.
Proof.
  intros Hb Hkey. destruct (decide (key = name)) as [->|Hne].
  - exists new. rewrite lookup_insert_eq. split; [done|]. by apply Hkey.
  - exists bm. rewrite lookup_insert_ne by done. by split.
Qed.

(** X4. No step of the store (a public operation or the locked half of
    [DeleteObject] run late) removes a bucket, changes its name, versioning
    flag or creation time, or removes or changes an archived entry: the
    archive of the bucket before the step is a prefix of its archive after,
    and [GetBucket] returns what it returned. *)
Theorem step_keeps_buckets s s' name bm :
  step s s' →
  buckets s !! name = Some bm →
  ∃ bm', buckets s' !! name = Some bm' ∧
    bucket bm' = bucket bm ∧
    archivedObjects bm `prefix_of` archivedObjects bm' ∧
    GetBucket s' name = GetBucket s name.
Proof.
  intros Hstep Hb.
  assert (∃ bm', buckets s' !! name = Some bm' ∧ bucket bm' = bucket bm ∧
            archivedObjects bm `prefix_of` archivedObjects bm')
    as (bm' & Hb' & Hrec & Harch).
  { destruct Hstep as [now key v|r obj s1 err Hc|now b o s1 err Hd
                      |now b obj bm0 bm1 Hb0 Hd|].
    - unfold CreateBucket. destruct (buckets s !! key) as [bm0|] eqn:Hk.
      + rewrite (getBucketInMemory_Some _ _ _ Hk).
        exists bm. by case_decide.
      + rewrite (getBucketInMemory_None _ _ Hk). cbn.
        apply kept_insert; [done|]. intros old Hold. congruence.
    - unfold CreateObject in Hc.
      destruct (buckets s !! BucketName obj) as [bm0|] eqn:Hk.
      + rewrite (getBucketInMemory_Some _ _ _ Hk) in Hc.
        destruct (addObject _ _ bm0 obj) as [bm1|] eqn:Hadd; [|done].
        injection Hc as <- <-. cbn. apply kept_insert; [done|].
        intros old Hold. assert (old = bm0) as -> by congruence.
        split; [by eapply addObject_bucket|].
        by eapply addObject_elements.
      + rewrite (getBucketInMemory_None _ _ Hk) in Hc.
        destruct (addObject _ _ _ obj) as [bm1|] eqn:Hadd; [|done].
        injection Hc as <- <-. cbn. apply kept_insert; [done|].
        intros old Hold. congruence.
    - destruct (buckets s !! b) as [bm0|] eqn:Hk.
      + destruct (list_find (matches false (probe b o 0)) (activeObjects bm0))
          as [[k e]|] eqn:Hf.
        * rewrite (DeleteObject_found _ _ _ _ _ _ _ Hk Hf) in Hd.
          injection Hd as <- <-. cbn. apply kept_insert; [done|].
          intros old Hold. assert (old = bm0) as -> by congruence. cbn.
          split; [done|].
          destruct (VersioningEnabled (bucket bm0)); [by eexists|done].
        * rewrite (DeleteObject_no_object _ _ _ _ _ Hk Hf) in Hd.
          injection Hd as <- <-. by exists bm.
      + rewrite (DeleteObject_no_bucket _ _ _ _ Hk) in Hd.
        injection Hd as <- <-. by exists bm.
    - cbn. apply kept_insert; [done|].
      intros old Hold. assert (old = bm0) as -> by congruence.
      split; [by eapply deleteObject_bucket|]. by eapply deleteObject_elements.
    - by exists bm. }
  exists bm'. split_and!; try done.
  rewrite (GetBucket_Some _ _ _ Hb), (GetBucket_Some _ _ _ Hb'). by rewrite Hrec.
Qed.

Lemma step_keeps_buckets_witness :
  ∃ s' bm',
    DeleteObject Demo.t3 Demo.versioned "b" "o" = Some (s', None) ∧
    buckets s' !! "b" = Some bm' ∧
    bucket bm' = mkBucket "b" true Demo.t1 ∧
    [Demo.archivedX] `prefix_of` archivedObjects bm'.
Proof.
  destruct (DeleteObject_total Demo.t3 Demo.versioned "b" "o") as [[s' err] Hd].
  destruct Demo_versioned_bucket as (Hb & _ & Harch).
  destruct (step_keeps_buckets Demo.versioned s' "b"
              (Demo.bucketOf Demo.versioned))
    as (bm' & Hb' & Hrec & Hpre & _).
  - by eapply step_DeleteObject.
  - exact Hb.
  - exists s', bm'. rewrite Harch in Hpre. split_and!; try done.
    vm_compute in Hd. by injection Hd as <- <-.
Defined.

(** ** Names of buckets and of their objects *)

Lemma bucketNamed_new now name v : bucketNamed name (newBucketInMemory now name v).
Proof. by split. Qed.

Lemma bucketNamed_addObject name tGen tDel bm obj bm' :
  bucketNamed name bm → BucketName obj = name →
  addObject tGen tDel bm obj = Some bm' → bucketNamed name bm'.
Proof.
  intros [Hn Hall] Hobj Hadd. rewrite Forall_app in Hall.
  destruct Hall as [Hact Harch]. rewrite Forall_forall in Hact, Harch.
  destruct (addObject_elements _ _ _ _ _ Hadd) as (Ha & Hr & _).
  split; [by rewrite (addObject_bucket _ _ _ _ _ Hadd)|].
  apply Forall_app. split; apply Forall_forall; intros x Hx.
  - destruct (Ha x Hx) as [?| ->]; [by apply Hact|done].
  - destruct (Hr x Hx) as [?|(old & Hold & _ & ->)]; [by apply Harch|].
    cbn. by apply Hact.
Qed.

Lemma bucketNamed_deleteObject name now bm obj bm' :
  bucketNamed name bm →
  deleteObject now bm obj true = Some bm' → bucketNamed name bm'.
Proof.
  intros [Hn Hall] Hdel. rewrite Forall_app in Hall.
  destruct Hall as [Hact Harch]. rewrite Forall_forall in Hact, Harch.
  destruct (deleteObject_elements _ _ _ _ _ Hdel) as (Ha & Hr & _).
  split; [by rewrite (deleteObject_bucket _ _ _ _ _ Hdel)|].
  apply Forall_app. split; apply Forall_forall; intros x Hx.
  - apply Hact. by apply Ha.
  - destruct (Hr x Hx) as [?|(-> & e & He & Hm)]; [by apply Harch|].
    cbn. rewrite <- (Hact e He).
    apply matches_full_logical in Hm. by apply (f_equal fst) in Hm.
Qed.

Lemma store_named_insert s name bm :
  store_named s → bucketNamed name bm →
  store_named (mkStorageMemory (<[name := bm]> (buckets s))).
Proof.
  intros Hs Hbm name' bm'. cbn. rewrite lookup_insert.
  case_decide as Hn; [intros [= <-]; by rewrite <- Hn|]. apply Hs.
Qed.

Lemma store_named_CreateBucket now s name v :
  store_named s → store_named (CreateBucket now s name v).1.
Proof.
  intros Hs. unfold CreateBucket.
  destruct (buckets s !! name) as [bm|] eqn:Hb.
  - rewrite (getBucketInMemory_Some _ _ _ Hb). by case_decide.
  - rewrite (getBucketInMemory_None _ _ Hb). cbn.
    apply store_named_insert; [done|]. apply bucketNamed_new.
Qed.

Lemma store_named_CreateObject r s obj s' err :
  store_named s → CreateObject r s obj = Some (s', err) → store_named s'.
Proof.
  intros Hs. unfold CreateObject.
  destruct (buckets s !! BucketName obj) as [bm|] eqn:Hb.
  - rewrite (getBucketInMemory_Some _ _ _ Hb).
    destruct (addObject _ _ bm obj) as [bm'|] eqn:Hadd; [|done].
    intros [= <- <-]. apply store_named_insert; [done|].
    eapply bucketNamed_addObject; [by eapply Hs|done|done].
  - rewrite (getBucketInMemory_None _ _ Hb).
    destruct (addObject _ _ _ obj) as [bm'|] eqn:Hadd; [|done].
    intros [= <- <-]. apply store_named_insert; [done|].
    eapply bucketNamed_addObject; [apply bucketNamed_new|done|done].
Qed.

Lemma store_named_late now s b obj bm bm' :
  store_named s → buckets s !! b = Some bm →
  deleteObject now bm obj true = Some bm' →
  store_named (mkStorageMemory (<[b := bm']> (buckets s))).
Proof.
  intros Hs Hb Hdel. apply store_named_insert; [done|].
  eapply bucketNamed_deleteObject; [by eapply Hs|done].
Qed.

Lemma store_named_DeleteObject now s b o s' err :
  store_named s → DeleteObject now s b o = Some (s', err) → store_named s'.
Proof.
  intros Hs. unfold DeleteObject.
  destruct (GetObject s b o) as [[obj [e|]]|]; cbn; [by intros [= <- <-]| |done].
  destruct (buckets s !! b) as [bm|] eqn:Hb.
  - rewrite (getBucketInMemory_Some _ _ _ Hb).
    destruct (deleteObject now bm obj true) as [bm'|] eqn:Hdel; [|done].
    intros [= <- <-]. by eapply store_named_late.
  - rewrite (getBucketInMemory_None _ _ Hb). by intros [= <- <-].
Qed.

(** One round of [NewStorageMemory] is one [CreateObject]. *)
Lemma seedObject_CreateObject s r o :
  seedObject s (r, o) = fst <$> CreateObject r s o.
Proof.
  unfold seedObject, CreateObject, CreateBucket.
  destruct (buckets s !! BucketName o) as [bm|] eqn:Hb.
  - rewrite (getBucketInMemory_Some _ _ _ Hb).
    assert ((if decide (VersioningEnabled (bucket bm) ≠ false)
             then (s, Some (BucketExistsDifferently (BucketName o)))
             else (s, None)).1 = s) as -> by by case_decide.
    rewrite Hb. cbn. by destruct (addObject _ _ bm o).
  - rewrite (getBucketInMemory_None _ _ Hb). cbn.
    rewrite lookup_insert_eq. cbn.
    destruct (addObject _ _ _ o) as [bm'|]; [|done]. cbn.
    by rewrite insert_insert_eq.
Qed.

Lemma NewStorageMemory_snoc objects ro :
  NewStorageMemory (objects ++ [ro])
  = s ← NewStorageMemory objects; seedObject s ro.
Proof. unfold NewStorageMemory. by rewrite foldl_snoc. Qed.

Lemma store_named_NewStorageMemory objects s :
  NewStorageMemory objects = Some s → store_named s.
Proof.
  revert s. induction objects as [|[r o] objects IH] using rev_ind; intros s.
  - intros [= <-]. by intros name bm.
  - rewrite NewStorageMemory_snoc.
    destruct (NewStorageMemory objects) as [s0|]; [|done].
    cbn [mbind option_bind]. rewrite seedObject_CreateObject.
    destruct (CreateObject r s0 o) as [[s1 err]|] eqn:Hc; [|done].
    intros [= <-]. eapply store_named_CreateObject; [|done]. by apply IH.
Qed.

Lemma store_named_reachable s : reachable s → store_named s.
Proof.
  induction 1 as [|objects s Hnew|s s' _ IH Hstep].
  - by intros name bm.
  - by eapply store_named_NewStorageMemory.
  - destruct Hstep as [now key v|r obj s1 err Hc|now b o s1 err Hd
                      |now b obj bm0 bm1 Hb0 Hd|].
    + by apply store_named_CreateBucket.
    + by eapply store_named_CreateObject.
    + by eapply store_named_DeleteObject.
    + by eapply store_named_late.
    + done.
Qed.

(** X5. In every reachable store a bucket is stored under its own name and
    holds only objects of that bucket: the record [GetBucket(b)] returns is
    named [b], and every object [ListObjects(b, _)] returns, active or
    archived, has bucket name [b]. *)
Theorem reachable_names s b :
  reachable s →
  (∀ B, GetBucket s b = (B, None) → BName B = b) ∧
  (∀ versions l, ListObjects s b versions = (l, None) →
     Forall (λ o, BucketName o = b) l).
Proof.
  intros Hs%store_named_reachable. split.
  - intros B. destruct (buckets s !! b) as [bm|] eqn:Hb.
    + rewrite (GetBucket_Some _ _ _ Hb). intros [= <-]. by apply (Hs b bm).
    + by rewrite (GetBucket_None _ _ Hb).
  - intros versions l. unfold ListObjects.
    destruct (buckets s !! b) as [bm|] eqn:Hb.
    + rewrite (getBucketInMemory_Some _ _ _ Hb).
      destruct (Hs b bm Hb) as [_ Hall].
      destruct versions; cbn; intros [= <-]; [done|].
      rewrite Forall_app in Hall. by destruct Hall.
    + by rewrite (getBucketInMemory_None _ _ Hb).
Qed.

Lemma reachable_names_witness :
  Forall (λ o, BucketName o = "b") [Demo.activeY; Demo.archivedX].
Proof.
  destruct (reachable_names Demo.versioned "b" Demo_versioned_reachable)
    as [_ Hlist].
  apply (Hlist true). by vm_compute.
Defined.

Lemma ListBuckets_records s :
  (ListBuckets s).1 = (λ kv, bucket kv.2) <$> map_to_list (buckets s).
Proof.
  unfold ListBuckets. cbn. induction (map_to_list (buckets s)) as [|kv l IH];
    [done|].
  cbn. by rewrite Bucket_eta, IH.
Qed.

(** X6. [ListBuckets] never fails and returns one record per bucket of the
    store: as many records as there are buckets, a record being listed
    exactly when it is the record of a stored bucket (the order is that of
    the map's iteration and nothing is stated about it). In a reachable store
    the listed names are pairwise distinct and a record is listed exactly when
    [GetBucket] of its name returns it. *)
Theorem ListBuckets_spec s :
  (ListBuckets s).2 = None ∧
  length (ListBuckets s).1 = size (buckets s) ∧
  (∀ B, B ∈ (ListBuckets s).1 ↔
        ∃ name bm, buckets s !! name = Some bm ∧ B = bucket bm) ∧
  (reachable s →
     NoDup (BName <$> (ListBuckets s).1) ∧
     ∀ B, B ∈ (ListBuckets s).1 ↔ GetBucket s (BName B) = (B, None)).
Proof.
  assert (∀ B, B ∈ (ListBuckets s).1 ↔
               ∃ name bm, buckets s !! name = Some bm ∧ B = bucket bm)
    as Hmem.
  { intros B. rewrite ListBuckets_records, list_elem_of_fmap. split.
    - intros ([name bm] & -> & Hin%elem_of_map_to_list). by exists name, bm.
    - intros (name & bm & Hb & ->). exists (name, bm).
      split; [done|]. by apply elem_of_map_to_list. }
  split_and!; [done| |done|].
  - by rewrite ListBuckets_records, length_fmap, length_map_to_list.
  - intros Hs%store_named_reachable. split.
    + rewrite ListBuckets_records, <- list_fmap_compose.
      rewrite (list_fmap_ext _ fst (map_to_list (buckets s))).
      * apply NoDup_fst_map_to_list.
      * intros i [name bm] Hi%list_elem_of_lookup_2%elem_of_map_to_list.
        cbn. by apply (Hs name bm).
    + intros B. rewrite Hmem. split.
      * intros (name & bm & Hb & ->).
        destruct (Hs name bm Hb) as [-> _]. by apply GetBucket_Some.
      * destruct (buckets s !! BName B) as [bm|] eqn:Hb.
        -- rewrite (GetBucket_Some _ _ _ Hb). intros [= <-]. by exists (BName (bucket bm)), bm.
        -- by rewrite (GetBucket_None _ _ Hb).
Qed.

Lemma ListBuckets_spec_witness :
  NoDup (BName <$> (ListBuckets Demo.versioned).1) ∧
  mkBucket "b" true Demo.t1 ∈ (ListBuckets Demo.versioned).1.
Proof.
  destruct (ListBuckets_spec Demo.versioned) as (_ & _ & _ & Hreach).
  destruct (Hreach Demo_versioned_reachable) as [Hnd Hget].
  split; [exact Hnd|]. apply Hget. by vm_compute.
Defined.

(** X7. In a reachable store a bucket without versioning has no archive:
    [ListObjects] with versions returns what it returns without. *)
Theorem ListObjects_unversioned s b bm :
  reachable s →
  buckets s !! b = Some bm →
  VersioningEnabled (bucket bm) = false →
  archivedObjects bm = [] ∧
  ListObjects s b true = ListObjects s b false.
Proof.
  intros Hs Hb Hv.
  pose proof (archiveOnlyVersioned_reachable s Hs b bm Hb Hv) as Hempty.
  split; [done|]. unfold ListObjects.
  rewrite (getBucketInMemory_Some _ _ _ Hb). cbn.
  by rewrite Hempty, app_nil_r.
Qed.

Lemma ListObjects_unversioned_witness :
  archivedObjects (Demo.bucketOf Demo.unversioned) = [] ∧
  ListObjects Demo.unversioned "b" true = ListObjects Demo.unversioned "b" false.
Proof.
  apply (ListObjects_unversioned Demo.unversioned "b").
  - apply Demo_unversioned_reachable.
  - by vm_compute.
  - by vm_compute.
Defined.

(** ** Writing and reading back *)

Section FirstWith.
Context (P : Object → Prop) `{∀ o, Decision (P o)}.
Implicit Types (l : list Object) (k : nat).

Lemma firstWith_app l1 l2 :
  firstWith P (l1 ++ l2)
  = match firstWith P l1 with Some e => Some e | None => firstWith P l2 end.
Proof.
  destruct (firstWith P l1) as [e|] eqn:Hf.
  - unfold firstWith in *. destruct (list_find P l1) as [[k e']|] eqn:Hl; [|done].
    by erewrite list_find_app_l.
  - apply firstWith_None in Hf. by apply firstWith_app_r.
Qed.

Lemma firstWith_cons_False x l : ¬ P x → firstWith P (x :: l) = firstWith P l.
Proof.
  intros Hx. unfold firstWith. cbn. rewrite decide_False by done.
  by destruct (list_find P l) as [[??]|].
Qed.

Lemma firstWith_cons_True x l : P x → firstWith P (x :: l) = Some x.
Proof. intros Hx. unfold firstWith. cbn. by rewrite decide_True. Qed.

Lemma firstWith_snoc_irrelevant l x :
  ¬ P x → firstWith P (l ++ [x]) = firstWith P l.
Proof.
  intros Hx. rewrite firstWith_app, firstWith_cons_False by done.
  by destruct (firstWith P l).
Qed.

Lemma firstWith_insert_irrelevant l k old x :
  l !! k = Some old → ¬ P old → ¬ P x →
  firstWith P (<[k := x]> l) = firstWith P l.
Proof.
  intros Hk Hold Hx. pose proof (lookup_lt_Some _ _ _ Hk) as Hlt.
  rewrite insert_take_drop by done.
  rewrite <- (take_drop_middle l k old) at 3 by done.
  rewrite !firstWith_app, !firstWith_cons_False by done. done.
Qed.

Lemma firstWith_Some_inv l e : firstWith P l = Some e → e ∈ l ∧ P e.
Proof.
  unfold firstWith. destruct (list_find P l) as [[k e']|] eqn:Hf; [|done].
  intros [= <-]. apply list_find_Some in Hf as (Hk & He & _).
  split; [by eapply list_elem_of_lookup_2|done].
Qed.

End FirstWith.

Lemma CreateObject_inv r s obj s' err :
  CreateObject r s obj = Some (s', err) →
  ∃ bm0 bm',
    (buckets s !! BucketName obj = Some bm0 ∨
     buckets s !! BucketName obj = None ∧
     bm0 = newBucketInMemory (atCreate r) (BucketName obj) false) ∧
    addObject (atGeneration r) (atDelete r) bm0 obj = Some bm' ∧
    s' = mkStorageMemory (<[BucketName obj := bm']> (buckets s)) ∧
    err = None.
Proof.
  unfold CreateObject.
  destruct (buckets s !! BucketName obj) as [bm|] eqn:Hb.
  - rewrite (getBucketInMemory_Some _ _ _ Hb).
    destruct (addObject _ _ bm obj) as [bm'|] eqn:Hadd; [|done].
    intros [= <- <-]. exists bm, bm'. auto.
  - rewrite (getBucketInMemory_None _ _ Hb).
    destruct (addObject _ _ _ obj) as [bm'|] eqn:Hadd; [|done].
    intros [= <- <-]. eexists _, bm'. split_and!; [by right|done|done|done].
Qed.

Lemma CreateObject_reads r s obj s' err :
  CreateObject r s obj = Some (s', err) →
  GetObject s' (BucketName obj) (Name obj)
  = Some (resolved (atGeneration r) obj, None) ∧
  (Generation (resolved (atGeneration r) obj) ≠ 0 →
   GetObjectWithGeneration s' (BucketName obj) (Name obj)
     (Generation (resolved (atGeneration r) obj))
   = Some (resolved (atGeneration r) obj, None)) ∧
  resolved (atGeneration r) obj ∈ (ListObjects s' (BucketName obj) false).1.
Proof.
  intros (bm0 & bm' & _ & Hadd & -> & _)%CreateObject_inv.
  destruct (addObject_position _ _ _ _ _ Hadd) as [k Hfind].
  set (stored := resolved (atGeneration r) obj) in *.
  split_and!.
  - erewrite GetObject_unfold by apply lookup_insert_eq.
    rewrite (list_find_ext _ (matches false obj)); [by rewrite Hfind|].
    intros e. done.
  - intros Hg.
    erewrite GetObjectWithGeneration_unfold by apply lookup_insert_eq.
    unfold considered. rewrite decide_True by done.
    rewrite bool_decide_eq_true_2 by done.
    apply list_find_Some in Hfind as (Hk & Hm & Hmin).
    erewrite list_find_app_l; [done|].
    apply list_find_Some. split_and!; [done|done|].
    intros j y Hj Hlt Hmy. apply (Hmin j y Hj Hlt).
    by apply (f_equal fst) in Hmy.
  - unfold ListObjects.
    erewrite getBucketInMemory_Some by apply lookup_insert_eq. cbn.
    apply list_find_Some in Hfind as (Hk & _).
    by eapply list_elem_of_lookup_2.
Qed.

(** X8. What [CreateObject] wrote is what the lookups return next: after
    [CreateObject(obj)], in any store, [GetObject] of the object's bucket and
    name returns the stored object (the argument with its generation
    resolved) with no error, so does [GetObjectWithGeneration] for the stored
    generation when it is not zero, and [ListObjects] lists it among the
    active objects. *)
Theorem CreateObject_then_get r s obj s' err :
  CreateObject r s obj = Some (s', err) →
  GetObject s' (BucketName obj) (Name obj)
  = Some (resolved (atGeneration r) obj, None) ∧
  (Generation (resolved (atGeneration r) obj) ≠ 0 →
   GetObjectWithGeneration s' (BucketName obj) (Name obj)
     (Generation (resolved (atGeneration r) obj))
   = Some (resolved (atGeneration r) obj, None)) ∧
  resolved (atGeneration r) obj ∈ (ListObjects s' (BucketName obj) false).1.
Proof. apply CreateObject_reads. Qed.

Lemma CreateObject_then_get_witness :
  ∃ s', CreateObject Demo.r1 emptyStorage Demo.objX = Some (s', None) ∧
    GetObject s' "b" "o" = Some (resolved Demo.t1 Demo.objX, None) ∧
    GetObjectWithGeneration s' "b" "o" Demo.genX
    = Some (resolved Demo.t1 Demo.objX, None).
Proof.
  destruct (CreateObject_total Demo.r1 emptyStorage Demo.objX)
    as [[s' err] Hc].
  destruct (CreateObject_then_get Demo.r1 emptyStorage Demo.objX s' err Hc)
    as (Hget & Hgen & _).
  exists s'. split_and!.
  - vm_compute in Hc. by injection Hc as <- <-.
  - exact Hget.
  - by apply Hgen.
Defined.

Lemma addObject_firstWith tGen tDel bm obj bm'
    (P : Object → Prop) `{∀ o, Decision (P o)} :
  addObject tGen tDel bm obj = Some bm' →
  (∀ x, IDNoGen x = IDNoGen obj → ¬ P x) →
  firstWith P (activeObjects bm') = firstWith P (activeObjects bm) ∧
  firstWith P (archivedObjects bm') = firstWith P (archivedObjects bm).
Proof.
  intros Hadd HP.
  destruct (decide (findObject obj (activeObjects bm) false >= 0)) as [Hf|Hf].
  - apply findObject_found in Hf as (k & old & Hk & Hold & Hm & _).
    erewrite addObject_found in Hadd by done. injection Hadd as <-. cbn.
    assert (IDNoGen old = IDNoGen obj) as Hid by (symmetry; exact Hm).
    split.
    + eapply firstWith_insert_irrelevant; [done|by apply HP|by apply HP].
    + destruct (VersioningEnabled (bucket bm)); [|done].
      apply firstWith_snoc_irrelevant. by apply HP.
  - rewrite addObject_fresh in Hadd by lia. injection Hadd as <-. cbn.
    split; [|done]. apply firstWith_snoc_irrelevant. by apply HP.
Qed.

Lemma considered_firstWith bm bm' g (P : Object → Prop) `{∀ o, Decision (P o)} :
  firstWith P (activeObjects bm') = firstWith P (activeObjects bm) →
  firstWith P (archivedObjects bm') = firstWith P (archivedObjects bm) →
  firstWith P (considered bm' g) = firstWith P (considered bm g).
Proof.
  intros Ha Hr. unfold considered. case_decide; [|done].
  by rewrite !firstWith_app, Ha, Hr.
Qed.

Lemma probe_other_name mg b o g x :
  Name x ≠ o → ¬ matches mg (probe b o g) x.
Proof.
  intros Hn Hm. apply matches_logical in Hm. apply Hn.
  by apply (f_equal snd) in Hm.
Qed.

Lemma lookups_of_other_bucket s s' b :
  buckets s' !! b = buckets s !! b →
  (∀ o g, GetObjectWithGeneration s' b o g = GetObjectWithGeneration s b o g) ∧
  (∀ v, ListObjects s' b v = ListObjects s b v) ∧
  GetBucket s' b = GetBucket s b.
Proof.
  intros Hb.
  unfold GetObjectWithGeneration, ListObjects, GetBucket, getBucketInMemory.
  by rewrite Hb.
Qed.

Lemma CreateObject_elsewhere r s obj s' err :
  CreateObject r s obj = Some (s', err) →
  (∀ b, b ≠ BucketName obj →
     buckets s' !! b = buckets s !! b ∧
     (∀ o g, GetObjectWithGeneration s' b o g
             = GetObjectWithGeneration s b o g) ∧
     (∀ v, ListObjects s' b v = ListObjects s b v) ∧
     GetBucket s' b = GetBucket s b) ∧
  (∀ o g, o ≠ Name obj →
     if buckets s !! BucketName obj is Some _
     then GetObjectWithGeneration s' (BucketName obj) o g
          = GetObjectWithGeneration s (BucketName obj) o g
     else GetObjectWithGeneration s (BucketName obj) o g
          = Some (zeroObject, Some (NoBucketNamed (BucketName obj))) ∧
          GetObjectWithGeneration s' (BucketName obj) o g
          = Some (probe (BucketName obj) o g, Some ObjectNotFound)).
Proof.
  intros (bm0 & bm' & Hcase & Hadd & -> & _)%CreateObject_inv. split.
  - intros b Hne.
    assert (buckets (mkStorageMemory (<[BucketName obj := bm']> (buckets s)))
              !! b = buckets s !! b) as Hb
      by (cbn; by rewrite lookup_insert_ne).
    split; [done|]. by apply lookups_of_other_bucket.
  - intros o g Hne.
    assert (∀ mg x, IDNoGen x = IDNoGen obj →
                    ¬ matches mg (probe (BucketName obj) o g) x) as Hother.
    { intros mg x Hx. apply probe_other_name.
      apply (f_equal snd) in Hx. cbn in Hx. congruence. }
    destruct (addObject_firstWith _ _ _ _ _
                (matches (bool_decide (g ≠ 0)) (probe (BucketName obj) o g))
                Hadd (Hother _)) as [Ha Hr].
    erewrite (GetObjectWithGeneration_firstWith
                (mkStorageMemory _)) by apply lookup_insert_eq.
    rewrite (considered_firstWith _ _ _ _ Ha Hr).
    destruct Hcase as [Hb|[Hb ->]]; rewrite Hb.
    + by rewrite (GetObjectWithGeneration_firstWith _ _ _ _ _ Hb).
    + split; [by apply GetObjectWithGeneration_no_bucket|].
      unfold considered. cbn. by case_decide.
Qed.

(** X9. [CreateObject(obj)] touches one name of one bucket. Every other
    bucket is left as it was, with all its lookups and listings. In the
    object's own bucket, when it existed, the lookup of any other name, for
    any generation, returns what it returned. When the bucket did not exist,
    such a lookup failed with the bucket-level not-found error before and
    fails with the object-level one after. *)
Theorem CreateObject_frame r s obj s' err :
  CreateObject r s obj = Some (s', err) →
  (∀ b, b ≠ BucketName obj →
     buckets s' !! b = buckets s !! b ∧
     (∀ o g, GetObjectWithGeneration s' b o g
             = GetObjectWithGeneration s b o g) ∧
     (∀ v, ListObjects s' b v = ListObjects s b v) ∧
     GetBucket s' b = GetBucket s b) ∧
  (∀ o g, o ≠ Name obj →
     if buckets s !! BucketName obj is Some _
     then GetObjectWithGeneration s' (BucketName obj) o g
          = GetObjectWithGeneration s (BucketName obj) o g
     else GetObjectWithGeneration s (BucketName obj) o g
          = Some (zeroObject, Some (NoBucketNamed (BucketName obj))) ∧
          GetObjectWithGeneration s' (BucketName obj) o g
          = Some (probe (BucketName obj) o g, Some ObjectNotFound)).
Proof. apply CreateObject_elsewhere. Qed.

Lemma CreateObject_frame_witness :
  ∃ s', CreateObject Demo.r1 Demo.versioned (mkObject "b" "p" "z" EmptyString 0)
        = Some (s', None) ∧
    GetObjectWithGeneration s' "b" "o" Demo.genX
    = Some (Demo.archivedX, None) ∧
    GetObjectWithGeneration s' "c" "o" 0
    = Some (zeroObject, Some (NoBucketNamed "c")).
Proof.
  destruct (CreateObject_total Demo.r1 Demo.versioned
              (mkObject "b" "p" "z" EmptyString 0)) as [[s' err] Hc].
  destruct (CreateObject_frame _ _ _ _ _ Hc) as [Hbuckets Hnames].
  exists s'. split_and!.
  - vm_compute in Hc. by injection Hc as <- <-.
  - pose proof (Hnames "o"%string Demo.genX ltac:(done)) as Hsame.
    destruct Demo_versioned_bucket as (Hb & _).
    cbn [BucketName] in Hsame. rewrite Hb in Hsame. rewrite Hsame.
    by vm_compute.
  - destruct (Hbuckets "c"%string ltac:(done)) as (_ & Hsame & _).
    rewrite Hsame. by vm_compute.
Defined.

(** X10. Without versioning, writing the same object again changes nothing:
    when [CreateObject(obj)], for an object with a non-zero generation, has
    brought the store to [s1] and the bucket has no versioning (it did not
    exist before, or existed without it), a second [CreateObject(obj)]
    returns the store [s1] itself. *)
Theorem CreateObject_again r1 r2 s obj s1 err :
  CreateObject r1 s obj = Some (s1, err) →
  Generation obj ≠ 0 →
  (∀ bm, buckets s !! BucketName obj = Some bm →
         VersioningEnabled (bucket bm) = false) →
  CreateObject r2 s1 obj = Some (s1, None).
Proof.
  intros (bm0 & bm1 & Hcase & Hadd & -> & _)%CreateObject_inv Hg Hv.
  assert (VersioningEnabled (bucket bm1) = false) as Hv1.
  { rewrite (addObject_bucket _ _ _ _ _ Hadd).
    destruct Hcase as [Hb|[_ ->]]; [by eapply Hv|done]. }
  destruct (addObject_position _ _ _ _ _ Hadd) as [k Hfind].
  rewrite resolved_nonzero in Hfind by done.
  pose proof (findObject_of_list_find _ _ _ _ _ Hfind) as Hk.
  apply list_find_Some in Hfind as (Hstored & _).
  unfold CreateObject.
  erewrite getBucketInMemory_Some by apply lookup_insert_eq.
  erewrite addObject_found by done. cbn.
  rewrite Hv1, resolved_nonzero by done. rewrite list_insert_id by done.
  rewrite insert_insert_eq. by destruct bm1.
Qed.

Lemma CreateObject_again_witness :
  ∃ s1, CreateObject Demo.r1 emptyStorage Demo.objX5 = Some (s1, None) ∧
    CreateObject Demo.r2 s1 Demo.objX5 = Some (s1, None).
Proof.
  destruct (CreateObject_total Demo.r1 emptyStorage Demo.objX5)
    as [[s1 err] Hc].
  exists s1. split.
  - vm_compute in Hc. by injection Hc as <- <-.
  - apply (CreateObject_again Demo.r1 Demo.r2 emptyStorage Demo.objX5 s1 err);
      [exact Hc|done|done].
Defined.

(** ** Deleting *)

Lemma swapRemove_length {A} (l : list A) (k : nat) :
  (k < length l)%nat → (length (swapRemove l k) + 1 = length l)%nat.
Proof.
  intros Hk. rewrite swapRemove_perm by done.
  rewrite length_delete by by apply lookup_lt_is_Some. lia.
Qed.

Lemma swapRemove_last {A} (l : list A) x :
  swapRemove (l ++ [x]) (length l) = l.
Proof.
  unfold swapRemove. rewrite last_snoc, length_app. cbn.
  rewrite insert_app_r_alt by lia. rewrite Nat.sub_diag. cbn.
  by rewrite take_app_length' by lia.
Qed.

Lemma elem_of_delete_other {A} (l : list A) (k j : nat) e :
  l !! j = Some e → j ≠ k → e ∈ delete k l.
Proof.
  intros Hj Hne. apply list_elem_of_lookup.
  destruct (decide (j < k)%nat).
  - exists j. by rewrite list_lookup_delete_lt.
  - exists (j - 1)%nat. rewrite list_lookup_delete_ge by lia.
    by replace (S (j - 1)) with j by lia.
Qed.

Lemma StorageMemory_eta s : mkStorageMemory (buckets s) = s.
Proof. by destruct s. Qed.

Lemma bucketInMemory_eta bm :
  mkBucketInMemory (bucket bm) (activeObjects bm) (archivedObjects bm) = bm.
Proof. by destruct bm. Qed.

(** X11. [DeleteObject] returns the error that [GetObject] of the same bucket
    and name returns, and none when [GetObject] succeeds. When it returns an
    error the store is unchanged. When it succeeds exactly one active object
    of the bucket is gone. In both cases every other bucket is as it was. *)
Theorem DeleteObject_outcome now s b o :
  ∃ s' err x,
    DeleteObject now s b o = Some (s', err) ∧
    GetObject s b o = Some (x, err) ∧
    (err ≠ None → s' = s) ∧
    (err = None →
       (length (ListObjects s' b false).1 + 1
        = length (ListObjects s b false).1)%nat) ∧
    (∀ b', b' ≠ b → buckets s' !! b' = buckets s !! b').
Proof.
  destruct (buckets s !! b) as [bm|] eqn:Hb.
  - destruct (list_find (matches false (probe b o 0)) (activeObjects bm))
      as [[k e]|] eqn:Hf.
    + eexists _, None, e. split_and!.
      * by eapply DeleteObject_found.
      * by rewrite (GetObject_unfold _ _ _ _ Hb), Hf.
      * done.
      * intros _. unfold ListObjects.
        erewrite getBucketInMemory_Some by apply lookup_insert_eq.
        rewrite (getBucketInMemory_Some _ _ _ Hb). cbn.
        apply swapRemove_length.
        by apply list_find_Some in Hf as (?%lookup_lt_Some & _).
      * intros b' Hne. cbn. by rewrite lookup_insert_ne.
    + exists s, (Some ObjectNotFound), (probe b o 0). split_and!; try done.
      * by eapply DeleteObject_no_object.
      * by rewrite (GetObject_unfold _ _ _ _ Hb), Hf.
  - exists s, (Some (NoBucketNamed b)), zeroObject. split_and!; try done.
    + by apply DeleteObject_no_bucket.
    + by apply GetObjectWithGeneration_no_bucket.
Qed.

Lemma DeleteObject_outcome_witness :
  DeleteObject Demo.t3 Demo.versioned "b" "q"
  = Some (Demo.versioned, Some ObjectNotFound).
Proof.
  destruct (DeleteObject_outcome Demo.t3 Demo.versioned "b" "q")
    as (s' & err & x & Hd & Hget & Hfail & _).
  vm_compute in Hget. injection Hget as <- <-.
  rewrite Hd. by rewrite Hfail.
Defined.

Lemma unique_elem l x y :
  NoDup (IDNoGen <$> l) → x ∈ l → y ∈ l → IDNoGen x = IDNoGen y → x = y.
Proof.
  intros Hnd (i & Hi)%list_elem_of_lookup (j & Hj)%list_elem_of_lookup Hid.
  assert (j = i) as -> by by eapply unique_position.
  congruence.
Qed.

(** With at most one entry per logical identity, a search for one logical
    identity does not depend on the order of the list. *)
Lemma firstWith_unique_perm (P : Object → Prop) `{∀ o, Decision (P o)}
    l l' id :
  NoDup (IDNoGen <$> l) → l ≡ₚ l' → (∀ x, P x → IDNoGen x = id) →
  firstWith P l = firstWith P l'.
Proof.
  intros Hnd Hperm Hid.
  destruct (firstWith P l) as [e|] eqn:Hl.
  - apply firstWith_Some_inv in Hl as [He HPe].
    destruct (firstWith P l') as [e'|] eqn:Hl'.
    + apply firstWith_Some_inv in Hl' as [He' HPe'].
      rewrite <- Hperm in He'. f_equal.
      eapply unique_elem; [done|done|done|].
      by rewrite (Hid e), (Hid e').
    + apply firstWith_None in Hl'. rewrite <- Hperm in Hl'.
      rewrite Forall_forall in Hl'. by destruct (Hl' e He).
  - apply firstWith_None in Hl. rewrite Hperm in Hl.
    symmetry. by apply firstWith_None.
Qed.

Lemma firstWith_delete_irrelevant (P : Object → Prop) `{∀ o, Decision (P o)}
    l (k : nat) e :
  l !! k = Some e → ¬ P e → firstWith P (delete k l) = firstWith P l.
Proof.
  intros Hk He. rewrite delete_take_drop.
  rewrite <- (take_drop_middle l k e) at 3 by done.
  by rewrite !firstWith_app, firstWith_cons_False.
Qed.

Lemma firstWith_swapRemove (P : Object → Prop) `{∀ o, Decision (P o)}
    l (k : nat) e id :
  NoDup (IDNoGen <$> l) → l !! k = Some e → ¬ P e →
  (∀ x, P x → IDNoGen x = id) →
  firstWith P (swapRemove l k) = firstWith P l.
Proof.
  intros Hnd Hk He Hid.
  rewrite <- (firstWith_delete_irrelevant P l k e) by done.
  symmetry. eapply firstWith_unique_perm; [|symmetry|done].
  - rewrite list_fmap_delete. eapply sublist_NoDup; [done|apply sublist_delete].
  - apply swapRemove_perm. by eapply lookup_lt_Some.
Qed.

(** X12. In a store whose active lists have at most one entry per logical
    identity, [DeleteObject(b, o)] touches one name of one bucket: the lookup
    of any other name of the bucket, for any generation, returns what it
    returned, although the removal moves the last active entry. *)
Theorem DeleteObject_frame now s b o s' err :
  store_inv s →
  DeleteObject now s b o = Some (s', err) →
  ∀ o' g, o' ≠ o →
    GetObjectWithGeneration s' b o' g = GetObjectWithGeneration s b o' g.
Proof.
  intros Hinv Hd o' g Hne.
  destruct (buckets s !! b) as [bm|] eqn:Hb.
  - destruct (list_find (matches false (probe b o 0)) (activeObjects bm))
      as [[k e]|] eqn:Hf.
    + rewrite (DeleteObject_found _ _ _ _ _ _ _ Hb Hf) in Hd.
      injection Hd as <- <-.
      destruct (Hinv _ _ Hb) as [Hu _].
      apply list_find_Some in Hf as (He & Hm & _).
      assert (Name e = o) as Hname
        by (apply (f_equal snd) in Hm; by cbn in Hm).
      erewrite (GetObjectWithGeneration_firstWith (mkStorageMemory _))
        by apply lookup_insert_eq.
      rewrite (GetObjectWithGeneration_firstWith _ _ _ _ _ Hb).
      erewrite considered_firstWith; [done| |]; cbn.
      * eapply firstWith_swapRemove; [done|done| |].
        -- apply probe_other_name. congruence.
        -- intros x Hx. apply matches_logical in Hx. symmetry. exact Hx.
      * destruct (VersioningEnabled (bucket bm)); [|done].
        apply firstWith_snoc_irrelevant. apply probe_other_name. cbn.
        congruence.
    + rewrite (DeleteObject_no_object _ _ _ _ _ Hb Hf) in Hd.
      by injection Hd as <- <-.
  - rewrite (DeleteObject_no_bucket _ _ _ _ Hb) in Hd.
    by injection Hd as <- <-.
Qed.

Lemma DeleteObject_frame_witness :
  ∃ s2 s',
    CreateObject Demo.r1 Demo.unversioned (mkObject "b" "p" "z" EmptyString 7)
    = Some (s2, None) ∧
    DeleteObject Demo.t3 s2 "b" "o" = Some (s', None) ∧
    GetObject s' "b" "p" = Some (mkObject "b" "p" "z" EmptyString 7, None).
Proof.
  destruct (CreateObject_total Demo.r1 Demo.unversioned
              (mkObject "b" "p" "z" EmptyString 7)) as [[s2 e2] Hc].
  destruct (DeleteObject_total Demo.t3 s2 "b" "o") as [[s' e'] Hd].
  assert (store_inv s2) as Hinv.
  { apply store_inv_reachable.
    eapply reachable_step; [apply Demo_unversioned_reachable|].
    eapply step_CreateObject. exact Hc. }
  pose proof (DeleteObject_frame Demo.t3 s2 "b" "o" s' e' Hinv Hd
                "p"%string 0 ltac:(done)) as Hsame.
  exists s2, s'. vm_compute in Hc. injection Hc as <- <-.
  vm_compute in Hd. injection Hd as <- <-.
  split_and!; [by vm_compute|by vm_compute|].
  unfold GetObject. rewrite Hsame. by vm_compute.
Defined.

(** X13. Without versioning, deleting what was just created restores the
    store: when the bucket exists without versioning and has no active object
    of the name, [CreateObject(obj)] followed by [DeleteObject] of the
    object's bucket and name succeeds and returns the store as it was before
    the creation. *)
Theorem CreateObject_then_DeleteObject r now s obj bm x s1 err :
  buckets s !! BucketName obj = Some bm →
  VersioningEnabled (bucket bm) = false →
  GetObject s (BucketName obj) (Name obj) = Some (x, Some ObjectNotFound) →
  CreateObject r s obj = Some (s1, err) →
  DeleteObject now s1 (BucketName obj) (Name obj) = Some (s, None).
Proof.
  intros Hb Hv Hget Hc.
  rewrite (GetObject_unfold _ _ _ _ Hb) in Hget.
  destruct (list_find _ _) as [[k e]|] eqn:Hf; [done|].
  apply list_find_None in Hf.
  unfold CreateObject in Hc. rewrite (getBucketInMemory_Some _ _ _ Hb) in Hc.
  rewrite addObject_fresh in Hc.
  2:{ rewrite findObject_find.
      assert (list_find (matches false obj) (activeObjects bm) = None) as ->;
        [|lia].
      apply list_find_None. eapply Forall_impl; [exact Hf|]. by intros y Hy. }
  injection Hc as <- <-.
  erewrite DeleteObject_found; [|apply lookup_insert_eq|].
  2:{ cbn. apply list_find_Some. split_and!.
      - by rewrite lookup_app_r, Nat.sub_diag.
      - done.
      - intros j y Hj Hlt. rewrite lookup_app_l in Hj by done.
        rewrite Forall_forall in Hf. apply Hf.
        by eapply list_elem_of_lookup_2. }
  cbn. rewrite Hv, swapRemove_last, insert_insert_eq.
  rewrite bucketInMemory_eta, insert_id by done.
  by rewrite StorageMemory_eta.
Qed.

Lemma CreateObject_then_DeleteObject_witness :
  ∃ s1,
    CreateObject Demo.r1 Demo.unversioned (mkObject "b" "p" "z" EmptyString 7)
    = Some (s1, None) ∧
    DeleteObject Demo.t3 s1 "b" "p" = Some (Demo.unversioned, None).
Proof.
  destruct (CreateObject_total Demo.r1 Demo.unversioned
              (mkObject "b" "p" "z" EmptyString 7)) as [[s1 e1] Hc].
  exists s1. split.
  - vm_compute in Hc. by injection Hc as <- <-.
  - apply (CreateObject_then_DeleteObject Demo.r1 Demo.t3 Demo.unversioned
             (mkObject "b" "p" "z" EmptyString 7)
             (Demo.bucketOf Demo.unversioned) (probe "b" "p" 0) s1 e1);
      [by vm_compute|done|by vm_compute|exact Hc].
Defined.

Lemma DeleteObject_other_buckets now s b o s' err :
  DeleteObject now s b o = Some (s', err) →
  ∀ b', b' ≠ b → buckets s' !! b' = buckets s !! b'.
Proof.
  intros Hd b' Hne. destruct (buckets s !! b) as [bm|] eqn:Hb.
  - destruct (list_find (matches false (probe b o 0)) (activeObjects bm))
      as [[k e]|] eqn:Hf.
    + rewrite (DeleteObject_found _ _ _ _ _ _ _ Hb Hf) in Hd.
      injection Hd as <- <-. cbn. by rewrite lookup_insert_ne.
    + rewrite (DeleteObject_no_object _ _ _ _ _ Hb Hf) in Hd.
      by injection Hd as <- <-.
  - rewrite (DeleteObject_no_bucket _ _ _ _ Hb) in Hd.
    by injection Hd as <- <-.
Qed.

(** X14. With versioning no version is lost: after any public operation,
    every object that was in a bucket with versioning, active or archived, is
    still in it, either as it was or, moved to the archive, with only its
    [Deleted] marker set to a formatted time. *)
Theorem versioned_keeps_versions op s s' err b bm :
  exec op s = Some (s', err) →
  buckets s !! b = Some bm →
  VersioningEnabled (bucket bm) = true →
  ∃ bm', buckets s' !! b = Some bm' ∧
    ∀ e, e ∈ activeObjects bm ++ archivedObjects bm →
      e ∈ activeObjects bm' ++ archivedObjects bm' ∨
      ∃ t, withDeleted e (FormatRFC3339 t) ∈ archivedObjects bm'.
Proof.
  intros Hex Hb Hv.
  assert (∀ bm' : bucketInMemory, bm' = bm →
            ∀ e, e ∈ activeObjects bm ++ archivedObjects bm →
              e ∈ activeObjects bm' ++ archivedObjects bm' ∨
              ∃ t, withDeleted e (FormatRFC3339 t) ∈ archivedObjects bm')
    as Hsame by (intros ? -> e He; by left).
  destruct op as [now name v|r obj|now b0 o]; cbn in Hex.
  - injection Hex as Hc. apply (f_equal fst) in Hc. cbn in Hc. subst s'.
    unfold CreateBucket. destruct (buckets s !! name) as [bm0|] eqn:Hk.
    + rewrite (getBucketInMemory_Some _ _ _ Hk). exists bm.
      split; [by case_decide|by apply Hsame].
    + rewrite (getBucketInMemory_None _ _ Hk). cbn. exists bm.
      split; [|by apply Hsame]. rewrite lookup_insert_ne; [done|congruence].
  - apply CreateObject_inv in Hex as (bm0 & bm' & Hcase & Hadd & -> & _).
    destruct (decide (BucketName obj = b)) as [Hbn|Hbn].
    + rewrite Hbn in *. destruct Hcase as [Hb0|[Hb0 _]]; [|congruence].
      assert (bm0 = bm) as -> by congruence.
      exists bm'. split; [apply lookup_insert_eq|].
      destruct (decide (findObject obj (activeObjects bm) false >= 0))
        as [Hf|Hf].
      * apply findObject_found in Hf as (k & old & Hk & Hold & _).
        erewrite addObject_found in Hadd by done. injection Hadd as <-.
        cbn. rewrite Hv. intros e [He|He]%elem_of_app.
        -- apply list_elem_of_lookup in He as [j Hj].
           destruct (decide (j = k)) as [->|Hne].
           ++ right. exists (atDelete r). apply elem_of_app. right.
              apply list_elem_of_singleton. congruence.
           ++ left. apply elem_of_app. left. apply list_elem_of_lookup.
              exists j. by rewrite list_lookup_insert_ne.
        -- left. rewrite !elem_of_app. auto.
      * rewrite addObject_fresh in Hadd by lia. injection Hadd as <-.
        cbn. intros e He. left. rewrite !elem_of_app in *. tauto.
    + exists bm. split; [|by apply Hsame]. cbn.
      by rewrite lookup_insert_ne.
  - destruct (decide (b0 = b)) as [->|Hne].
    + destruct (list_find (matches false (probe b o 0)) (activeObjects bm))
        as [[k e0]|] eqn:Hf.
      * rewrite (DeleteObject_found _ _ _ _ _ _ _ Hb Hf) in Hex.
        injection Hex as <- <-. eexists. split; [apply lookup_insert_eq|].
        cbn. rewrite Hv. apply list_find_Some in Hf as (He0 & _).
        intros e [He|He]%elem_of_app.
        -- apply list_elem_of_lookup in He as [j Hj].
           destruct (decide (j = k)) as [->|Hjk].
           ++ right. exists now. apply elem_of_app. right.
              apply list_elem_of_singleton. congruence.
           ++ left. apply elem_of_app. left.
              rewrite swapRemove_perm by by eapply lookup_lt_Some.
              by eapply elem_of_delete_other.
        -- left. rewrite !elem_of_app. auto.
      * rewrite (DeleteObject_no_object _ _ _ _ _ Hb Hf) in Hex.
        injection Hex as <- <-. exists bm. split; [done|by apply Hsame].
    + exists bm. split; [|by apply Hsame].
      rewrite (DeleteObject_other_buckets _ _ _ _ _ _ Hex); [done|congruence].
Qed.

Lemma versioned_keeps_versions_witness :
  ∃ s' bm',
    DeleteObject Demo.t3 Demo.versioned "b" "o" = Some (s', None) ∧
    buckets s' !! "b" = Some bm' ∧
    ∀ e, e ∈ [Demo.activeY; Demo.archivedX] →
      e ∈ activeObjects bm' ++ archivedObjects bm' ∨
      ∃ t, withDeleted e (FormatRFC3339 t) ∈ archivedObjects bm'.
Proof.
  destruct (DeleteObject_total Demo.t3 Demo.versioned "b" "o") as [[s' err] Hd].
  destruct Demo_versioned_bucket as (Hb & Hact & Harch).
  destruct (versioned_keeps_versions
              (OpDeleteObject Demo.t3 "b" "o") Demo.versioned s' err "b"
              (Demo.bucketOf Demo.versioned) Hd Hb eq_refl)
    as (bm' & Hb' & Hkept).
  exists s', bm'. rewrite Hact, Harch in Hkept. split_and!; [|done|done].
  vm_compute in Hd. by injection Hd as <- <-.
Defined.

(** ** The constructor *)

(** X15. [NewStorageMemory(objects)] builds the store that the empty store
    becomes when the objects are written one after the other with
    [CreateObject]: its explicit [CreateBucket(name, false)], whose error it
    drops, followed by [addObject] does what the implicit bucket creation of
    [CreateObject] does. *)
Theorem NewStorageMemory_as_writes objects :
  NewStorageMemory objects = run (seedOps objects) emptyStorage.
Proof.
  unfold NewStorageMemory, run. generalize (Some emptyStorage) as acc.
  induction objects as [|[r o] objects IH]; intros acc; [done|].
  cbn. rewrite <- IH. f_equal. destruct acc as [s|]; [|done].
  cbn [mbind option_bind]. apply seedObject_CreateObject.
Qed.

Lemma unversioned_NewStorageMemory objects s :
  NewStorageMemory objects = Some s →
  everywhere (λ bm, VersioningEnabled (bucket bm) = false) s ∧
  ∀ name, is_Some (buckets s !! name)
          ↔ name ∈ (λ ro, BucketName ro.2) <$> objects.
Proof.
  revert s. induction objects as [|[r o] objects IH] using rev_ind; intros s.
  - intros [= <-]. split; [by intros name bm|].
    intros name. cbn. rewrite lookup_empty. split; [by intros [??]|].
    by intros ?%elem_of_nil.
  - rewrite NewStorageMemory_snoc.
    destruct (NewStorageMemory objects) as [s0|]; [|done].
    cbn [mbind option_bind]. rewrite seedObject_CreateObject.
    destruct (CreateObject r s0 o) as [[s1 err]|] eqn:Hc; [|done].
    intros [= <-]. destruct (IH s0 eq_refl) as [Hv Hdom].
    apply CreateObject_inv in Hc as (bm0 & bm' & Hcase & Hadd & -> & _).
    split.
    + apply everywhere_insert; [done|].
      rewrite (addObject_bucket _ _ _ _ _ Hadd).
      destruct Hcase as [Hb|[_ ->]]; [by eapply Hv|done].
    + intros name. cbn. rewrite fmap_app, elem_of_app. cbn.
      rewrite list_elem_of_singleton, <- Hdom, lookup_insert.
      case_decide as Hn.
      * split; [auto|by eexists].
      * split; [auto|]. intros [?|?]; [done|congruence].
Qed.

(** X16. A store built by [NewStorageMemory] has exactly the buckets the
    seeded objects name, each stored under its name, none of them with
    versioning and none with an archived object. *)
Theorem NewStorageMemory_buckets objects s :
  NewStorageMemory objects = Some s →
  (∀ name, is_Some (buckets s !! name)
           ↔ name ∈ (λ ro, BucketName ro.2) <$> objects) ∧
  (∀ name bm, buckets s !! name = Some bm →
     BName (bucket bm) = name ∧
     VersioningEnabled (bucket bm) = false ∧
     archivedObjects bm = []).
Proof.
  intros Hnew. destruct (unversioned_NewStorageMemory _ _ Hnew) as [Hv Hdom].
  split; [done|]. intros name bm Hb. split_and!.
  - by apply (store_named_NewStorageMemory _ _ Hnew name bm).
  - by apply (Hv name bm).
  - apply (archiveOnlyVersioned_reachable s (reachable_seeded _ _ Hnew) name bm);
      [done|]. by apply (Hv name bm).
Qed.

Lemma NewStorageMemory_buckets_witness :
  ∃ s, NewStorageMemory [(Demo.r1, Demo.objX); (Demo.r2, Demo.objY)] = Some s ∧
    is_Some (buckets s !! "b") ∧ ¬ is_Some (buckets s !! "c").
Proof.
  destruct (NewStorageMemory_total
              [(Demo.r1, Demo.objX); (Demo.r2, Demo.objY)]) as [s Hnew].
  destruct (NewStorageMemory_buckets _ _ Hnew) as [Hdom _].
  exists s. rewrite !Hdom. cbn. split_and!; [done|by constructor|].
  rewrite !elem_of_cons, elem_of_nil. by intros [?|[?|?]].
Defined.

Lemma lastWritten_snoc b n objects r o :
  lastWritten b n (objects ++ [(r, o)])
  = if decide (IDNoGen o = (b, n)) then Some (r, o) else lastWritten b n objects.
Proof.
  unfold lastWritten. rewrite filter_app. cbn -[filter].
  rewrite filter_cons, filter_nil. cbn. case_decide.
  - by rewrite last_snoc.
  - by rewrite app_nil_r.
Qed.

(** X17. In a store built by [NewStorageMemory] the last seeded object of a
    bucket and name wins: [GetObject] returns it, with its generation
    resolved, and fails when no seeded object has that bucket and name. *)
Theorem NewStorageMemory_last_written objects s b n :
  NewStorageMemory objects = Some s →
  match lastWritten b n objects with
  | Some (r, o) => GetObject s b n = Some (resolved (atGeneration r) o, None)
  | None => ∃ x e, GetObject s b n = Some (x, Some e)
  end.
Proof.
  revert s. induction objects as [|[r o] objects IH] using rev_ind; intros s.
  - intros [= <-]. cbn. by eexists _, _.
  - rewrite NewStorageMemory_snoc.
    destruct (NewStorageMemory objects) as [s0|]; [|done].
    cbn [mbind option_bind]. rewrite seedObject_CreateObject.
    destruct (CreateObject r s0 o) as [[s1 err]|] eqn:Hc; [|done].
    intros [= <-]. specialize (IH s0 eq_refl).
    rewrite lastWritten_snoc. case_decide as Hid.
    + injection Hid as <- <-. by eapply CreateObject_reads.
    + destruct (CreateObject_elsewhere _ _ _ _ _ Hc) as [Hothers Hnames].
      destruct (decide (b = BucketName o)) as [->|Hb].
      * assert (n ≠ Name o) as Hn by (intros ->; by apply Hid).
        specialize (Hnames n 0 Hn). unfold GetObject in *.
        destruct (buckets s0 !! BucketName o) as [bm|].
        -- by rewrite Hnames.
        -- destruct Hnames as [Hbefore ->]. rewrite Hbefore in IH.
           destruct (lastWritten _ _ objects) as [[r' o']|]; [done|].
           by eexists _, _.
      * destruct (Hothers b Hb) as (_ & Hsame & _).
        unfold GetObject. by rewrite Hsame.
Qed.

Lemma NewStorageMemory_last_written_witness :
  ∃ s, NewStorageMemory [(Demo.r1, Demo.objX); (Demo.r2, Demo.objY)] = Some s ∧
    GetObject s "b" "o" = Some (Demo.activeY, None).
Proof.
  destruct (NewStorageMemory_total
              [(Demo.r1, Demo.objX); (Demo.r2, Demo.objY)]) as [s Hnew].
  exists s. split; [done|].
  exact (NewStorageMemory_last_written _ s "b" "o" Hnew).
Defined.

(** ** Listings and lookups agree *)

(** X18. In a reachable store the active listing of a bucket and [GetObject]
    agree: no two listed objects have the same name, and an object is listed
    by [ListObjects(b, false)] exactly when [GetObject] of its name in [b]
    returns it. *)
Theorem ListObjects_GetObject s b :
  reachable s →
  NoDup (Name <$> (ListObjects s b false).1) ∧
  ∀ e, e ∈ (ListObjects s b false).1 ↔
       GetObject s b (Name e) = Some (e, None).
Proof.
  intros Hs. unfold ListObjects.
  destruct (buckets s !! b) as [bm|] eqn:Hb.
  - rewrite (getBucketInMemory_Some _ _ _ Hb). cbn.
    destruct (store_inv_reachable s Hs b bm Hb) as [Hu _].
    destruct (store_named_reachable s Hs b bm Hb) as [_ Hnamed].
    rewrite Forall_app in Hnamed. destruct Hnamed as [Hnamed _].
    rewrite Forall_forall in Hnamed.
    assert (∀ e, e ∈ activeObjects bm → IDNoGen e = (b, Name e)) as Hid.
    { intros e He. unfold IDNoGen. by rewrite (Hnamed e He). }
    split.
    + unfold uniqueActive in Hu.
      rewrite (list_fmap_ext IDNoGen (λ e, (b, Name e)) (activeObjects bm))
        in Hu.
      * rewrite (list_fmap_compose Name (pair b)) in Hu.
        by apply NoDup_fmap_1 in Hu.
      * intros i e Hi. apply Hid. by eapply list_elem_of_lookup_2.
    + intros e. rewrite (GetObject_unfold _ _ _ _ Hb). split.
      * intros He.
        destruct (list_find _ _) as [[k e']|] eqn:Hf.
        -- apply list_find_Some in Hf as (Hk & Hm & _).
           do 2 f_equal. eapply unique_elem; [exact Hu| |done|].
           ++ by eapply list_elem_of_lookup_2.
           ++ rewrite (Hid e He). symmetry. exact Hm.
        -- apply list_find_None in Hf. rewrite Forall_forall in Hf.
           destruct (Hf e He). cbn. by rewrite (Hid e He).
      * destruct (list_find _ _) as [[k e']|] eqn:Hf; [|done].
        intros [= ->]. apply list_find_Some in Hf as (Hk & _).
        by eapply list_elem_of_lookup_2.
  - rewrite (getBucketInMemory_None _ _ Hb). cbn. split; [apply NoDup_nil_2|].
    intros e. unfold GetObject.
    rewrite (GetObjectWithGeneration_no_bucket _ _ _ _ Hb).
    split; [by intros ?%elem_of_nil|done].
Qed.

Lemma ListObjects_GetObject_witness :
  NoDup (Name <$> (ListObjects Demo.versioned "b" false).1) ∧
  Demo.activeY ∈ (ListObjects Demo.versioned "b" false).1.
Proof.
  destruct (ListObjects_GetObject Demo.versioned "b" Demo_versioned_reachable)
    as [Hnd Hiff].
  split; [exact Hnd|]. apply Hiff. by vm_compute.
Defined.

(** X19. What [GetObjectWithGeneration] returns without error is an object of
    the requested bucket and name, of the requested generation when that is
    not zero, that [ListObjects(b, true)] lists, and that
    [ListObjects(b, false)] lists when the generation asked for is zero. With
    the object-level error it returns the object it searched with (bucket,
    name and generation, nothing else), with the bucket-level error the zero
    object. *)
Theorem GetObjectWithGeneration_sound s b o g e err :
  GetObjectWithGeneration s b o g = Some (e, err) →
  match err with
  | None =>
      BucketName e = b ∧ Name e = o ∧ (g ≠ 0 → Generation e = g) ∧
      e ∈ (ListObjects s b true).1 ∧
      (g = 0 → e ∈ (ListObjects s b false).1)
  | Some ObjectNotFound => e = probe b o g ∧ is_Some (buckets s !! b)
  | Some (NoBucketNamed name) => e = zeroObject ∧ name = b ∧
                                 buckets s !! b = None
  | Some (BucketExistsDifferently _) => False
  end.
Proof.
  destruct (buckets s !! b) as [bm|] eqn:Hb.
  - rewrite (GetObjectWithGeneration_firstWith _ _ _ _ _ Hb).
    unfold ListObjects. rewrite (getBucketInMemory_Some _ _ _ Hb). cbn.
    destruct (firstWith _ _) as [e'|] eqn:Hf.
    + intros [= <- <-]. apply firstWith_Some_inv in Hf as [Hin Hm].
      pose proof (matches_logical _ _ _ Hm) as Hlog.
      unfold considered in Hin.
      split_and!.
      * by apply (f_equal fst) in Hlog.
      * by apply (f_equal snd) in Hlog.
      * intros Hg. rewrite bool_decide_eq_true_2 in Hm by done.
        by apply (f_equal snd) in Hm.
      * case_decide; [done|]. apply elem_of_app. by left.
      * intros ->. by rewrite decide_False in Hin by (by intros ?).
    + intros [= <- <-]. by split.
  - rewrite (GetObjectWithGeneration_no_bucket _ _ _ _ Hb).
    by intros [= <- <-].
Qed.

Lemma GetObjectWithGeneration_sound_witness :
  Generation Demo.archivedX = Demo.genX ∧
  Demo.archivedX ∈ (ListObjects Demo.versioned "b" true).1.
Proof.
  destruct (GetObjectWithGeneration_sound Demo.versioned "b" "o" Demo.genX
              Demo.archivedX None) as (_ & _ & Hgen & Hin & _).
  - by vm_compute.
  - split; [by apply Hgen|exact Hin].
Defined.

(** X20. Deleting twice: in a store whose active lists have at most one entry
    per logical identity, after a [DeleteObject] that succeeded a second
    [DeleteObject] of the same bucket and name fails with the object-level
    not-found error and leaves the store as the first one left it. *)
Theorem DeleteObject_twice now1 now2 s b o s' :
  store_inv s →
  DeleteObject now1 s b o = Some (s', None) →
  DeleteObject now2 s' b o = Some (s', Some ObjectNotFound).
Proof.
  intros Hinv Hd. destruct (buckets s !! b) as [bm|] eqn:Hb.
  - destruct (list_find (matches false (probe b o 0)) (activeObjects bm))
      as [[k e]|] eqn:Hf.
    + rewrite (DeleteObject_found _ _ _ _ _ _ _ Hb Hf) in Hd.
      injection Hd as <-. destruct (Hinv _ _ Hb) as [Hu _].
      unfold DeleteObject.
      by erewrite GetObject_after_removal.
    + by rewrite (DeleteObject_no_object _ _ _ _ _ Hb Hf) in Hd.
  - by rewrite (DeleteObject_no_bucket _ _ _ _ Hb) in Hd.
Qed.

Lemma DeleteObject_twice_witness :
  ∃ s', DeleteObject Demo.t3 Demo.versioned "b" "o" = Some (s', None) ∧
    DeleteObject Demo.t3 s' "b" "o" = Some (s', Some ObjectNotFound).
Proof.
  destruct (DeleteObject_total Demo.t3 Demo.versioned "b" "o") as [[s' err] Hd].
  assert (err = None) as -> by (vm_compute in Hd; by injection Hd as _ <-).
  exists s'. split; [exact Hd|].
  apply (DeleteObject_twice Demo.t3 Demo.t3 Demo.versioned "b" "o" s');
    [|exact Hd].
  apply store_inv_reachable, Demo_versioned_reachable.
Defined.
